(** * nonsense.py: a Markov-chain sentence generator

    Shallow embedding of [src/nonsense.py] (Python 2) and the properties of
    its chain builder, sampler and sentence generator.

    Modelling choices, all visible in the definitions below:
    - a Python [unicode] string is a list of code points ([N]);
    - the Unicode character database used by [re] and by [unicode.lower] /
      [unicode.capitalize] is an interface ([UnicodeData]); the general
      theorems hold for every instance, the examples use the ASCII table;
    - the SQLite tables are lists of rows in insertion order; the column
      [probability real] holds exact rationals ([Q]), so rounding of IEEE
      doubles is not part of the model;
    - Python exceptions are values of [exn]; a function that may raise
      returns an [outcome];
    - the global random source is a tape of numbers read left to right;
    - unbounded loops and the retry recursion take fuel; [OutOfFuel] means
      the fuel given was not enough, it is not a Python result;
    - writes to stderr are not modelled (but the arithmetic that guards them
      is, since it can raise). *)

From Stdlib Require Import List ZArith NArith QArith Qabs Bool Lia.
From Stdlib Require Import String Ascii Permutation DecimalString.
From Stdlib Require Import DecimalPos DecimalZ.
Import ListNotations.

Set Implicit Arguments.
Local Open Scope Z_scope.

(** ** Unicode strings *)

Definition char := N.
Definition unicode := list char.

(** A literal: the code points of an ASCII string. *)
Definition u (s : string) : unicode := map N_of_ascii (list_ascii_of_string s).

Definition chr_space : char := 32%N.
Definition chr_bang : char := 33%N.
Definition chr_comma : char := 44%N.
Definition chr_dot : char := 46%N.
Definition chr_colon : char := 58%N.
Definition chr_semicolon : char := 59%N.
Definition chr_underscore : char := 95%N.
Definition chr_newline : char := 10%N.

Fixpoint unicode_eqb (a b : unicode) : bool :=
  match a, b with
  | [], [] => true
  | x :: a', y :: b' => N.eqb x y && unicode_eqb a' b'
  | _, _ => false
  end.

(** The part of the Unicode database the program reads through [re.UNICODE],
    [unicode.lower] and [unicode.capitalize]. *)
Class UnicodeData := {
  isalnum : char -> bool;
  tolower : char -> char;
  toupper : char -> char
}.

(** [s.lower()] *)
Definition lower `{UnicodeData} (s : unicode) : unicode := map tolower s.

(** [s.capitalize()]: first character upper-cased, the rest lower-cased. *)
Definition capitalize `{UnicodeData} (s : unicode) : unicode :=
  match s with
  | [] => []
  | c :: r => toupper c :: map tolower r
  end.

(** [sep.join(l)] *)
Fixpoint join (sep : unicode) (l : list unicode) : unicode :=
  match l with
  | [] => []
  | [x] => x
  | x :: r => x ++ sep ++ join sep r
  end.

(** [s.count(c)] for a one-character [c] *)
Definition count_char (c : char) (s : unicode) : Z :=
  Z.of_nat (List.length (filter (N.eqb c) s)).

(** [s.find(".") == -1] *)
Definition find_is_minus1 (c : char) (s : unicode) : bool :=
  negb (existsb (N.eqb c) s).

(** [l[-1]] *)
Definition last_opt {A} (l : list A) : option A :=
  match rev l with
  | [] => None
  | x :: _ => Some x
  end.

(** ** Exceptions and outcomes *)

Inductive exn : Type :=
| ZeroDivisionError
| IndexError
| ValueError
| TypeError
| AttributeError (attr : string)
| IOError
| OperationalError
| IntegrityError.

Inductive outcome (A : Type) : Type :=
| Returns (a : A)
| Raises (e : exn)
| OutOfFuel.
Arguments Raises {A} e.
Arguments OutOfFuel {A}.

Definition obind {A B} (m : outcome A) (k : A -> outcome B) : outcome B :=
  match m with
  | Returns a => k a
  | Raises e => Raises e
  | OutOfFuel => OutOfFuel
  end.

Declare Scope outcome_scope.
Delimit Scope outcome_scope with outcome.
Notation "x <- m ;; k" := (obind m (fun x => k))
  (at level 61, m at next level, right associativity) : outcome_scope.
Local Open Scope outcome_scope.

(** ** Tokenizer *)

Section Tokenizer.
Context `{UnicodeData}.

(** [WORD_RE = re.compile(r"([\w\.\!\,]+)", re.UNICODE)] *)
Definition word_re_class (c : char) : bool :=
  isalnum c || N.eqb c chr_underscore
  || N.eqb c chr_dot || N.eqb c chr_bang || N.eqb c chr_comma.

(** [re.finditer(WORD_RE, input)]: the maximal runs of class characters,
    left to right. [run] is the match in progress. *)
Fixpoint finditer_run (run : unicode) (input : unicode) : list unicode :=
  match input with
  | [] => match run with [] => [] | _ => [run] end
  | c :: rest =>
      if word_re_class c then finditer_run (run ++ [c]) rest
      else match run with
           | [] => finditer_run [] rest
           | _ => run :: finditer_run [] rest
           end
  end.

Definition finditer (input : unicode) : list unicode := finditer_run [] input.

(** [NO_REAL_WORD_RE = re.compile(r"^[\d\.\,\:\;]*$")]; [\d] without
    [re.UNICODE] is [0-9]. *)
Definition no_real_word_class (c : char) : bool :=
  (N.leb 48 c && N.leb c 57)
  || N.eqb c chr_dot || N.eqb c chr_comma
  || N.eqb c chr_colon || N.eqb c chr_semicolon.

(** [re.match(NO_REAL_WORD_RE, word)] is not [None]; [$] also matches just
    before a final newline. *)
Definition no_real_word (word : unicode) : bool :=
  forallb no_real_word_class word
  || match rev word with
     | c :: r => N.eqb c chr_newline && forallb no_real_word_class r
     | [] => false
     end.

(** The words the loop of [generate_markov_chain] sees, already lowered. *)
Definition words (input : unicode) : list unicode := map lower (finditer input).
End Tokenizer.

(** ** The database *)

Record row := mkRow {
  prefix : unicode;
  suffix : unicode;
  num_occurrences : Z;
  probability : option Q   (* NULL until the UPDATE pass *)
}.

Record database := mkDb {
  markov_chain : option (list row);
  markov_chain_temp : option (list (unicode * unicode))
}.

(** A connection to a file that does not exist yet, or to [":memory:"]. *)
Definition empty_database : database := mkDb None None.

Definition WRITE_TO_DB_AFTER_NUM_WORDS : Z := 2000.
Definition root_prefix : unicode := u "^".

Definition pair_eqb (a b : unicode * unicode) : bool :=
  unicode_eqb (fst a) (fst b) && unicode_eqb (snd a) (snd b).

(** [SELECT name FROM sqlite_master WHERE type='table' AND name='markov_chain'] *)
Definition table_exists (db : database) : bool :=
  match markov_chain db with Some _ => true | None => false end.

(** [init_database]: [CREATE TABLE IF NOT EXISTS markov_chain (...)] *)
Definition init_database (db : database) : database :=
  match markov_chain db with
  | Some _ => db
  | None => mkDb (Some []) (markov_chain_temp db)
  end.

(** [sum(n) ... GROUP BY k]: one entry per distinct key, in order of first
    appearance (SQL leaves the order of groups open; nothing below depends
    on it). *)
Fixpoint bump {K} (eqb : K -> K -> bool) (k : K) (n : Z) (acc : list (K * Z))
  : list (K * Z) :=
  match acc with
  | [] => [(k, n)]
  | (k', m) :: t => if eqb k k' then (k', m + n) :: t else (k', m) :: bump eqb k n t
  end.

Definition group_sum {K} (eqb : K -> K -> bool) (l : list (K * Z)) : list (K * Z) :=
  fold_left (fun acc kn => bump eqb (fst kn) (snd kn) acc) l [].

(** [SELECT prefix, suffix, count( * ) FROM markov_chain_temp GROUP BY prefix, suffix] *)
Definition select_counts (temp : list (unicode * unicode))
  : list ((unicode * unicode) * Z) :=
  group_sum pair_eqb (map (fun k => (k, 1)) temp).

(** [SELECT prefix, sum(num_occurrences) FROM markov_chain GROUP BY prefix] *)
Definition select_totals (rows : list row) : list (unicode * Z) :=
  group_sum unicode_eqb (map (fun r => (prefix r, num_occurrences r)) rows).

(** [probability=((1.0*num_occurrences)/?)] for one row; SQLite yields NULL
    for a division by zero. *)
Definition set_probability (total : Z) (r : row) : row :=
  mkRow (prefix r) (suffix r) (num_occurrences r)
    (if total =? 0 then None
     else Some (inject_Z (num_occurrences r) / inject_Z total)%Q).

(** [UPDATE markov_chain SET probability=... WHERE prefix=?] *)
Definition update_probability (total : Z) (p : unicode) (rows : list row) : list row :=
  map (fun r => if unicode_eqb (prefix r) p then set_probability total r else r) rows.

(** The UNIQUE (prefix, suffix) constraint for one inserted row. *)
Definition violates_unique (rows : list row) (k : unicode * unicode) : bool :=
  existsb (fun r => pair_eqb (prefix r, suffix r) k) rows.

(** ** Chain builder *)

Section Builder.
Context `{UnicodeData}.
Variable lookback : Z.

(** One pass of the [for counter, match in enumerate(...)] loop body for a
    real word: lines 71-88. Returns the new [prev_prefixes] and
    [unsaved_suffixes]. *)
Definition record_word (word_count_estimate counter : Z) (word : unicode)
    (prev_prefixes : list unicode) (unsaved_suffixes : list (unicode * unicode))
  : outcome (list unicode * list (unicode * unicode)) :=
  (* counter % (word_count_estimate/10) *)
  if word_count_estimate / 10 =? 0 then Raises ZeroDivisionError else
  let unsaved1 := unsaved_suffixes ++ map (fun p => (p, word)) prev_prefixes in
  (* prev_prefixes and prev_prefixes[-1][-1] == "." *)
  after_dot <-
    match last_opt prev_prefixes with
    | None => Returns false
    | Some p => match last_opt p with
                | None => Raises IndexError
                | Some c => Returns (N.eqb c chr_dot)
                end
    end ;;
  let unsaved2 := if after_dot then unsaved1 ++ [(root_prefix, word)] else unsaved1 in
  (* if len(prev_prefixes) >= self.lookback: prev_prefixes.pop(0) *)
  popped <-
    if Z.of_nat (List.length prev_prefixes) >=? lookback
    then match prev_prefixes with
         | [] => Raises IndexError
         | _ :: t => Returns t
         end
    else Returns prev_prefixes ;;
  Returns (map (fun p => p ++ u " " ++ word) popped ++ [word], unsaved2).

(** The whole loop, lines 68-93, over the matches that remain. [temp] is
    the content of [markov_chain_temp]. *)
Fixpoint scan (word_count_estimate counter : Z) (matches : list unicode)
    (prev_prefixes : list unicode) (unsaved_suffixes temp : list (unicode * unicode))
  : outcome (list (unicode * unicode) * list (unicode * unicode)) :=
  match matches with
  | [] => Returns (unsaved_suffixes, temp)
  | m :: rest =>
      let word := lower m in
      st <-
        if negb (no_real_word word)
        then record_word word_count_estimate counter word prev_prefixes unsaved_suffixes
        else Returns (prev_prefixes, unsaved_suffixes) ;;
      let '(prev1, unsaved1) := st in
      if counter mod WRITE_TO_DB_AFTER_NUM_WORDS =? 0
      then scan word_count_estimate (counter + 1) rest prev1 [] (temp ++ unsaved1)
      else scan word_count_estimate (counter + 1) rest prev1 unsaved1 temp
  end.

(** Lines 106-107: the INSERT ... SELECT ... GROUP BY into [markov_chain]. *)
Definition insert_counts (rows : list row) (temp : list (unicode * unicode))
  : outcome (list row) :=
  let groups := select_counts temp in
  if existsb (fun g => violates_unique rows (fst g)) groups
  then Raises IntegrityError
  else Returns (rows ++ map (fun g => mkRow (fst (fst g)) (snd (fst g)) (snd g) None) groups).

(** Lines 116-117: the probability pass. *)
Definition update_probabilities (rows : list row) : list row :=
  fold_left (fun rs g => update_probability (snd g) (fst g) rs) (select_totals rows) rows.

(** Lines 60-97: what [markov_chain_temp] holds after the final save. *)
Definition collect_suffixes (input : unicode) : outcome (list (unicode * unicode)) :=
  (* DROP TABLE IF EXISTS markov_chain_temp; CREATE TABLE markov_chain_temp *)
  let temp0 : list (unicode * unicode) := [] in
  let word_count_estimate := count_char chr_space input + 1 in
  st <- scan word_count_estimate 0 (finditer input) [] [] temp0 ;;
  Returns (snd st ++ fst st).

Definition generate_markov_chain (input : unicode) (db : database) : outcome database :=
  temp <- collect_suffixes input ;;
  match markov_chain db with
  | None => Raises OperationalError
  | Some rows =>
      rows1 <- insert_counts rows temp ;;
      (* DROP TABLE markov_chain_temp *)
      Returns (mkDb (Some (update_probabilities rows1)) None)
  end.
End Builder.

(** ** The ASCII instance, for examples *)

Definition ascii_isalnum (c : char) : bool :=
  ((48 <=? c) && (c <=? 57) || (65 <=? c) && (c <=? 90) || (97 <=? c) && (c <=? 122))%N.
Definition ascii_tolower (c : char) : char :=
  if ((65 <=? c) && (c <=? 90))%N then (c + 32)%N else c.
Definition ascii_toupper (c : char) : char :=
  if ((97 <=? c) && (c <=? 122))%N then (c - 32)%N else c.

Definition ascii_table : UnicodeData :=
  {| isalnum := ascii_isalnum; tolower := ascii_tolower; toupper := ascii_toupper |}.

(** ** The random source *)

(** The numbers that [random.random], [random.randint] and SQLite's
    [RANDOM()] will deliver, in the order they are asked for. *)
Definition tape := nat -> N.

Definition next (g : tape) : N * tape := (g O, fun n => g (S n)).

(** Computations that read the tape and may raise. *)
Definition gen (A : Type) : Type := tape -> outcome (A * tape).

Definition gret {A} (a : A) : gen A := fun g => Returns (a, g).
Definition graise {A} (e : exn) : gen A := fun _ => Raises e.
Definition gbind {A B} (m : gen A) (k : A -> gen B) : gen B :=
  fun g => match m g with
           | Returns (a, g') => k a g'
           | Raises e => Raises e
           | OutOfFuel => OutOfFuel
           end.

Declare Scope gen_scope.
Delimit Scope gen_scope with gen.
Notation "x <- m ;; k" := (gbind m (fun x => k))
  (at level 61, m at next level, right associativity) : gen_scope.

(** [random.random()]: a multiple of 2^-53 in [0, 1). *)
Definition random_random : gen Q :=
  fun g => let (t, g') := next g in
           Returns (inject_Z (Z.of_N t mod 2 ^ 53) / inject_Z (2 ^ 53), g')%Q.

(** [random.randint(a, b)]: an integer in [a, b]; raises for an empty range. *)
Definition random_randint (a b : Z) : gen Z :=
  fun g => if b <? a then Raises ValueError
           else let (t, g') := next g in Returns (a + Z.of_N t mod (b - a + 1), g').

(** Take the element at position [i] out of a list. *)
Fixpoint extract {A} (i : nat) (l : list A) : option (A * list A) :=
  match l, i with
  | [], _ => None
  | x :: r, O => Some (x, r)
  | x :: r, S j => match extract j r with
                   | Some (y, r') => Some (y, x :: r')
                   | None => None
                   end
  end.

(** [ORDER BY RANDOM()]: the rows in an order chosen by the tape. *)
Fixpoint order_by_random_n {A} (n : nat) (l : list A) (g : tape) : list A * tape :=
  match n with
  | O => ([], g)
  | S m => let (t, g') := next g in
           match extract (N.to_nat t mod List.length l) l with
           | Some (x, r) => let (o, g'') := order_by_random_n m r g' in (x :: o, g'')
           | None => ([], g')
           end
  end.

Definition order_by_random {A} (l : list A) : gen (list A) :=
  fun g => Returns (order_by_random_n (List.length l) l g).

(** ** Sampler and sentence generator *)

(** Python truthiness of a value that is [None] or a string. *)
Definition truthy (v : option unicode) : bool :=
  match v with
  | Some (_ :: _) => true
  | _ => false
  end.

(** [range(a, b)] *)
Definition py_range (a b : Z) : list Z :=
  map (fun i => a + Z.of_nat i) (seq 0 (Z.to_nat (b - a))).

(** [l[-n:]] *)
Definition slice_last {A} (n : Z) (l : list A) : list A :=
  if n =? 0 then l else skipn (List.length l - Z.to_nat n) l.

(** The [MarkovChain] object: [self.lookback] and the connection. *)
Record MarkovChain := mkChain {
  lookback : Z;
  db_file : option unicode;   (* [None] for [":memory:"] *)
  conn : database
}.

(** [SELECT suffix, probability FROM markov_chain WHERE prefix=?] *)
Definition select_suffixes (rows : list row) (from_prefix : unicode)
  : list (unicode * option Q) :=
  map (fun r => (suffix r, probability r))
      (filter (fun r => unicode_eqb (prefix r) from_prefix) rows).

(** The loop of [choose_next_word], lines 127-130; [i] is the running sum. *)
Fixpoint accumulate (random_choice : Q) (i : Q) (rows : list (unicode * option Q))
  : outcome (option unicode) :=
  match rows with
  | [] => Returns None
  | (s, None) :: _ => Raises TypeError
  | (s, Some p) :: rest =>
      let i' := (i + p)%Q in
      if Qle_bool random_choice i' then Returns (Some s)
      else accumulate random_choice i' rest
  end.

(** The test of the quality gate, line 163: [and] binds tighter than [or]. *)
Definition wants_retry (word_queue : list unicode) (out : unicode)
    (min_words max_length : Z) (prevent_recursion : bool) : bool :=
  (Z.of_nat (List.length word_queue) <? min_words)
  || ((Z.of_nat (List.length out) >? max_length) && negb prevent_recursion).

Section Generator.
Context `{UnicodeData}.
Variable self : MarkovChain.
Local Open Scope gen_scope.

Definition choose_next_word (from_prefix : unicode) : gen (option unicode) :=
  random_choice <- random_random ;;
  match markov_chain (conn self) with
  | None => graise OperationalError
  | Some table =>
      rows <- order_by_random (select_suffixes table from_prefix) ;;
      fun g => match accumulate random_choice 0 rows with
               | Returns w => Returns (w, g)
               | Raises e => Raises e
               | OutOfFuel => OutOfFuel
               end
  end.

(** The [for num_words_to_try in ...] loop, lines 149-154, over the window
    lengths that remain; [suggestion] is the variable of that name. *)
Fixpoint try_windows (lengths : list Z) (word_queue : list unicode)
    (suggestion : option unicode) : gen (option unicode) :=
  match lengths with
  | [] => gret suggestion
  | num_words_to_try :: rest =>
      if Z.of_nat (List.length word_queue) >=? num_words_to_try
      then
        suggestion' <- choose_next_word
                         (join (u " ") (slice_last num_words_to_try word_queue)) ;;
        if truthy suggestion' then gret suggestion'
        else try_windows rest word_queue suggestion'
      else try_windows rest word_queue suggestion
  end.

(** The [while word_queue[-1].find(".") == -1] loop, lines 145-159. *)
Fixpoint grow (fuel : nat) (word_queue : list unicode) : gen (list unicode) :=
  match fuel with
  | O => fun _ => OutOfFuel
  | S fuel' =>
      match last_opt word_queue with
      | None => graise IndexError
      | Some w =>
          if find_is_minus1 chr_dot w
          then
            k <- random_randint 1 (lookback self) ;;
            suggestion <- try_windows (rev (py_range 1 (k + 1))) word_queue None ;;
            match suggestion with
            | Some (c :: s) => grow fuel' (word_queue ++ [c :: s])
            | _ => gret word_queue
            end
          else gret word_queue
      end
  end.

(** Lines 133-143: the first words of the queue. The value computed for
    [out] there is overwritten at line 161 before any use; only the
    exception [first_word.capitalize()] can raise survives. *)
Definition seed (start_word : option unicode) : gen (list unicode) :=
  first_word <- (match start_word with
                 | Some (c :: s) => choose_next_word (lower (c :: s))
                 | _ => gret None
                 end) ;;
  match first_word, start_word with
  | Some (c :: s), Some sw =>
      let out := capitalize sw ++ u " " ++ (c :: s) in
      gret [sw; c :: s]
  | _, _ =>
      first_word' <- choose_next_word (if truthy start_word
                                       then match start_word with
                                            | Some sw => sw
                                            | None => root_prefix
                                            end
                                       else root_prefix) ;;
      match first_word' with
      | None => graise (AttributeError "capitalize")
      | Some w => let out := capitalize w in gret [w]
      end
  end.

Fixpoint generate_sentence (fuel : nat) (start_word : option unicode)
    (min_words max_length : Z) (prevent_recursion : bool) : gen unicode :=
  match fuel with
  | O => fun _ => OutOfFuel
  | S fuel' =>
      word_queue0 <- seed start_word ;;
      word_queue <- grow fuel' word_queue0 ;;
      let out := join (u " ") word_queue in
      if wants_retry word_queue out min_words max_length prevent_recursion
      then
        r <- random_random ;;
        generate_sentence fuel' None 5 140
          (negb (Qle_bool 1 (r * 10)))
      else gret out
  end.
End Generator.

(** ** Files, cache identity and the constructor *)

Fixpoint lookup {V} (k : unicode) (l : list (unicode * V)) : option V :=
  match l with
  | [] => None
  | (k', v) :: t => if unicode_eqb k k' then Some v else lookup k t
  end.

Fixpoint store {V} (k : unicode) (v : V) (l : list (unicode * V)) : list (unicode * V) :=
  match l with
  | [] => [(k, v)]
  | (k', v') :: t => if unicode_eqb k k' then (k, v) :: t else (k', v') :: store k v t
  end.

(** What lies outside the process: the text files (already decoded; a path
    without an entry cannot be opened), the SQLite files, and the paths
    given to [open], latest first. *)
Record world := mkWorld {
  files : list (unicode * unicode);
  disk : list (unicode * database);
  opened : list unicode
}.

(** ["%s.markovdb~%d" % (input_file, lookback)] *)
Definition cache_name (input_file : option unicode) (lookback : Z) : unicode :=
  match input_file with Some f => f | None => u "None" end
  ++ u ".markovdb~" ++ u (NilZero.string_of_int (Z.to_int lookback)).

(** [conn.commit()] on a connection to [target]. *)
Definition commit (target : option unicode) (db : database) (w : world) : world :=
  match target with
  | None => w
  | Some name => mkWorld (files w) (store name db (disk w)) (opened w)
  end.

Section Constructor.
Context `{UnicodeData}.

(** [MarkovChain.input], lines 42-49. *)
Definition input (self : MarkovChain) (input_file : unicode) (w : world)
  : outcome (MarkovChain * world) :=
  if table_exists (conn self) then Returns (self, w)
  else
    let conn1 := init_database (conn self) in
    let w1 := mkWorld (files w) (disk w) (input_file :: opened w) in
    match lookup input_file (files w) with
    | None => Raises IOError
    | Some text =>
        conn2 <- generate_markov_chain (lookback self) text conn1 ;;
        Returns (mkChain (lookback self) (db_file self) conn2,
                 commit (db_file self) conn2 w1)
    end.

(** [MarkovChain.__init__], lines 27-40. *)
Definition init (input_file : option unicode) (lookback : Z) (no_cache : bool)
    (w : world) : outcome (MarkovChain * world) :=
  let target := if no_cache then None else Some (cache_name input_file lookback) in
  let conn0 := match target with
               | None => empty_database
               | Some name => match lookup name (disk w) with
                              | Some db => db
                              | None => empty_database
                              end
               end in
  let self := mkChain lookback target conn0 in
  match input_file with
  | Some (c :: f) => input self (c :: f) w
  | _ => Returns (self, w)
  end.
End Constructor.

(** ** Quantities the statements speak about *)


Fixpoint Zsum (l : list Z) : Z :=
  match l with
  | [] => 0
  | z :: t => z + Zsum t
  end.

(** The rows of one prefix. *)
Definition rows_of (p : unicode) (rows : list row) : list row :=
  filter (fun r => unicode_eqb (prefix r) p) rows.

(** The total [num_occurrences] over the suffixes of one prefix. *)
Definition total_for (p : unicode) (rows : list row) : Z :=
  Zsum (map num_occurrences (rows_of p rows)).

(** How often a (prefix, suffix) pair occurs in a list of raw records. *)
Definition count_pair (k : unicode * unicode) (l : list (unicode * unicode)) : Z :=
  Z.of_nat (List.length (filter (pair_eqb k) l)).

(** The value stored under a key of a grouped result. *)
Fixpoint assoc {K} (eqb : K -> K -> bool) (k : K) (l : list (K * Z)) : option Z :=
  match l with
  | [] => None
  | (k', n) :: t => if eqb k k' then Some n else assoc eqb k t
  end.

(** The sum of the values recorded for a key. *)
Fixpoint key_total {K} (eqb : K -> K -> bool) (k : K) (l : list (K * Z)) : Z :=
  match l with
  | [] => 0
  | (k', n) :: t => if eqb k k' then n + key_total eqb k t else key_total eqb k t
  end.

Definition has_key {K} (eqb : K -> K -> bool) (k : K) (l : list (K * Z)) : bool :=
  existsb (fun kn => eqb k (fst kn)) l.

(** What one step of the probability pass does to one row. *)
Definition update_row (g : unicode * Z) (r : row) : row :=
  if unicode_eqb (prefix r) (fst g) then set_probability (snd g) r else r.

(** The rows the INSERT of lines 106-107 adds. *)
Definition counted_rows (temp : list (unicode * unicode)) : list row :=
  map (fun g => mkRow (fst (fst g)) (snd (fst g)) (snd g) None) (select_counts temp).


(** ** Concrete corpora, built with the ASCII table *)

Definition build_ascii (lb : Z) (text : string) : outcome database :=
  @generate_markov_chain ascii_table lb (u text) (init_database empty_database).

Definition table_of (o : outcome database) : list row :=
  match o with
  | Returns db => match markov_chain db with Some rows => rows | None => [] end
  | _ => []
  end.

Definition pets_corpus : string :=
  "The cat sat. The dog ran. The cat ran to the dog.".

Definition pets_db : database :=
  Eval vm_compute in
    match build_ascii 2 pets_corpus with Returns db => db | _ => empty_database end.

Definition pets_rows : list row := Eval vm_compute in table_of (Returns pets_db).

Definition pets_chain : MarkovChain := mkChain 2 None pets_db.

(** A world with one text file and no cache yet. *)
Definition pets_world : world :=
  mkWorld [(u "pets.txt", u pets_corpus)] [] [].

(** A corpus whose every sentence is one word long. *)
Definition hi_corpus : string := "Hi. Hi. Hi. Hi. Hi. Hi. Hi. Hi. Hi. Hi.".

Definition hi_db : database :=
  Eval vm_compute in
    match build_ascii 3 hi_corpus with Returns db => db | _ => empty_database end.

Definition hi_chain : MarkovChain := mkChain 3 None hi_db.

(** A corpus with a single way through it. *)
Definition count_corpus : string :=
  "Stop. One two three four five six seven eight nine.".

Definition count_db : database :=
  Eval vm_compute in
    match build_ascii 3 count_corpus with Returns db => db | _ => empty_database end.

Definition count_chain : MarkovChain := mkChain 3 None count_db.

(** A chain whose table exists but holds no row. *)
Definition empty_chain : MarkovChain := mkChain 3 None (init_database empty_database).

(** [k, k-1, ..., 1] *)
Fixpoint descending (k : nat) : list Z :=
  match k with
  | O => []
  | S m => Z.of_nat (S m) :: descending m
  end.

(** The first construction for ["pets.txt"] with lookback 2, and what it
    leaves behind. *)
Definition pets_cached : MarkovChain * world :=
  Eval vm_compute in
    match @init ascii_table (Some (u "pets.txt")) 2 false pets_world with
    | Returns x => x
    | _ => (pets_chain, pets_world)
    end.

(** ** Quantities for the tokenizer and the builder *)

(** The real words of a text, in order: what the loop body of
    [generate_markov_chain] acts on. *)
Definition real_words `{UnicodeData} (input : unicode) : list unicode :=
  filter (fun w => negb (no_real_word w)) (words input).

(** [word[-1] == "."] for a word of the queue of prefixes. *)
Definition ends_with_dot (w : unicode) : bool :=
  match last_opt w with
  | Some c => N.eqb c chr_dot
  | None => false
  end.

(** The prefixes tracked after the real words [seen]: the trailing windows of
    [seen], longest first, at most [lb] of them. *)
Definition windows (lb : Z) (seen : list unicode) : list unicode :=
  map (fun n => join (u " ") (slice_last n seen))
      (descending (Nat.min (List.length seen) (Z.to_nat lb))).

(** The raw records for the real words [rest] that follow the real words
    [seen]. *)
Fixpoint records (lb : Z) (seen rest : list unicode) : list (unicode * unicode) :=
  match rest with
  | [] => []
  | w :: rest' =>
      map (fun p => (p, w)) (windows lb seen)
      ++ (match last_opt seen with
          | Some d => if ends_with_dot d then [(root_prefix, w)] else []
          | None => []
          end)
      ++ records lb (seen ++ [w]) rest'
  end.

(** The key of a row under the UNIQUE (prefix, suffix) constraint. *)
Definition row_key (r : row) : unicode * unicode := (prefix r, suffix r).

Definition chr_tilde : char := 126%N.

(** ["%d" % lookback] *)
Definition format_d (lookback : Z) : unicode :=
  u (NilZero.string_of_int (Z.to_int lookback)).

(** The world after the first cached construction, with the log of opened
    files cleared, and the same world after one more [open]. *)
Definition pets_world_cached : world :=
  mkWorld (files pets_world) (disk (snd pets_cached)) [].

Definition pets_world_reopened : world :=
  mkWorld (files pets_world) (disk (snd pets_cached)) [u "pets.txt"].

(** ** The command line, lines 170-209 *)

(** A value that is an [int] by default and a [str] when taken from the
    command line. *)
Inductive pyval : Type :=
| PyInt (z : Z)
| PyStr (s : unicode).

(** The local variables of the main block after argument handling. *)
Record options := mkOptions {
  opt_start_word : option unicode;
  opt_max_length : pyval;
  opt_lookback : pyval;
  opt_no_cache : bool;
  opt_only_cache : bool;
  opt_args : list unicode
}.

(** How the main block goes on: it proceeds with a value, leaves through
    [sys.exit], or dies of an exception. *)
Inductive main_outcome (A : Type) : Type :=
| Proceeds (a : A)
| Exits (code : Z)
| Aborts (e : exn)
| UnicodeDecodeError.
Arguments Exits {A} code.
Arguments Aborts {A} e.
Arguments UnicodeDecodeError {A}.

Definition mbind {A B} (m : main_outcome A) (k : A -> main_outcome B) : main_outcome B :=
  match m with
  | Proceeds a => k a
  | Exits c => Exits c
  | Aborts e => Aborts e
  | UnicodeDecodeError => UnicodeDecodeError
  end.

(** [args.index(x)], when [x in args] *)
Fixpoint index_of (x : unicode) (args : list unicode) : option nat :=
  match args with
  | [] => None
  | y :: t => if unicode_eqb y x then Some O else option_map S (index_of x t)
  end.

(** [del args[i]] *)
Fixpoint delete_at {A} (i : nat) (args : list A) : list A :=
  match args, i with
  | [], _ => []
  | _ :: t, O => t
  | y :: t, S j => y :: delete_at j t
  end.

(** [args[i]] *)
Definition item (args : list unicode) (i : nat) : main_outcome unicode :=
  match nth_error args i with
  | Some v => Proceeds v
  | None => Aborts IndexError
  end.

Section CommandLine.
(** [str.decode("utf-8")] on an argument; [None] when the bytes are not
    valid UTF-8. *)
Variable utf8_decode : unicode -> option unicode.

Definition main_arguments (argv : list unicode) : main_outcome (options * unicode) :=
  if (List.length argv <? 2)%nat then Exits 1 else
  let args := tl argv in
  (* --startword: value decoded, value and flag deleted *)
  mbind (match index_of (u "--startword") args with
         | Some i =>
             mbind (item args (S i)) (fun v =>
             match utf8_decode v with
             | Some sw => Proceeds (Some sw, delete_at i (delete_at (S i) args))
             | None => UnicodeDecodeError
             end)
         | None => Proceeds (None, args)
         end) (fun '(start_word, args) =>
  (* --max-length: value kept as a string, value and flag deleted *)
  mbind (match index_of (u "--max-length") args with
         | Some i =>
             mbind (item args (S i)) (fun v =>
             Proceeds (PyStr v, delete_at i (delete_at (S i) args)))
         | None => Proceeds (PyInt 140, args)
         end) (fun '(max_length, args) =>
  (* --lookback: value kept as a string, only the value deleted *)
  mbind (match index_of (u "--lookback") args with
         | Some i =>
             mbind (item args (S i)) (fun v =>
             Proceeds (PyStr v, delete_at (S i) args))
         | None => Proceeds (PyInt 3, args)
         end) (fun '(lookback, args) =>
  let '(no_cache, args) :=
    match index_of (u "--no-cache") args with
    | Some i => (true, delete_at i args)
    | None => (false, args)
    end in
  let '(only_cache, args) :=
    match index_of (u "--only-cache") args with
    | Some i => (true, delete_at i args)
    | None => (false, args)
    end in
  (* source = args[0] *)
  mbind (item args O) (fun source =>
  Proceeds (mkOptions start_word max_length lookback no_cache only_cache args,
            source))))).
End CommandLine.

(** The five option names. *)
Definition option_names : list unicode :=
  [u "--startword"; u "--max-length"; u "--lookback"; u "--no-cache"; u "--only-cache"].

(** No argument of the list is an option name. *)
Definition plain (args : list unicode) : Prop :=
  forall a, In a args -> ~ In a option_names.

(** * Properties *)

Local Arguments Z.of_nat : simpl never.
Local Arguments Z.add : simpl never.
Local Arguments Z.sub : simpl never.
Local Arguments Z.mul : simpl never.
Local Arguments Z.div : simpl never.
Local Arguments Z.modulo : simpl never.
Local Arguments Z.pow : simpl never.

(** ** Equality tests *)

Lemma unicode_eqb_eq (a b : unicode) : unicode_eqb a b = true <-> a = b.
Proof.
  revert b; induction a as [|x a IH]; intros [|y b]; simpl; split; intro E;
    try reflexivity; try discriminate.
  - apply andb_true_iff in E as [E1 E2].
    apply N.eqb_eq in E1. apply IH in E2. now subst.
  - injection E as -> ->. rewrite N.eqb_refl. simpl. now apply IH.
Qed.

Lemma unicode_eqb_refl (a : unicode) : unicode_eqb a a = true.
Proof. now apply unicode_eqb_eq. Qed.

Lemma unicode_eqb_sym (a b : unicode) : unicode_eqb a b = unicode_eqb b a.
Proof.
  destruct (unicode_eqb a b) eqn:E1, (unicode_eqb b a) eqn:E2; try reflexivity.
  - apply unicode_eqb_eq in E1. subst. now rewrite unicode_eqb_refl in E2.
  - apply unicode_eqb_eq in E2. subst. now rewrite unicode_eqb_refl in E1.
Qed.

Lemma pair_eqb_eq (a b : unicode * unicode) : pair_eqb a b = true <-> a = b.
Proof.
  destruct a as [a1 a2], b as [b1 b2]. unfold pair_eqb. simpl.
  rewrite andb_true_iff, !unicode_eqb_eq. split.
  - now intros [-> ->].
  - intro E. now injection E.
Qed.

(** ** Grouping *)

Section Grouping.
Variable K : Type.
Variable eqb : K -> K -> bool.
Hypothesis eqb_eq : forall a b, eqb a b = true <-> a = b.

Let step := fun (acc : list (K * Z)) (kn : K * Z) => bump eqb (fst kn) (snd kn) acc.

Lemma eqb_refl' (a : K) : eqb a a = true.
Proof. now apply eqb_eq. Qed.

Lemma assoc_bump (k k' : K) (n : Z) (acc : list (K * Z)) :
  assoc eqb k' (bump eqb k n acc) =
  if eqb k' k
  then Some (match assoc eqb k acc with Some m => m + n | None => n end)
  else assoc eqb k' acc.
Proof.
  induction acc as [|[k0 m] acc IH]; simpl.
  - destruct (eqb k' k); reflexivity.
  - destruct (eqb k k0) eqn:E0; simpl.
    + apply eqb_eq in E0. subst k0.
      destruct (eqb k' k); reflexivity.
    + rewrite IH. destruct (eqb k' k) eqn:E1.
      * apply eqb_eq in E1. subst k'. now rewrite E0.
      * reflexivity.
Qed.

Lemma assoc_fold (l : list (K * Z)) : forall (acc : list (K * Z)) (k : K),
  assoc eqb k (fold_left step l acc) =
  match assoc eqb k acc with
  | Some m => Some (m + key_total eqb k l)
  | None => if has_key eqb k l then Some (key_total eqb k l) else None
  end.
Proof.
  induction l as [|[k0 n] l IH]; intros acc k; simpl.
  - destruct (assoc eqb k acc); [f_equal; lia | reflexivity].
  - rewrite IH. unfold step. simpl. rewrite assoc_bump.
    destruct (eqb k k0) eqn:E; simpl.
    + apply eqb_eq in E. subst k0.
      destruct (assoc eqb k acc); f_equal; lia.
    + reflexivity.
Qed.

Lemma keys_bump (k : K) (n : Z) (acc : list (K * Z)) :
  map fst (bump eqb k n acc) =
  if has_key eqb k acc then map fst acc else map fst acc ++ [k].
Proof.
  unfold has_key. induction acc as [|[k0 m] acc IH]; simpl; [reflexivity|].
  destruct (eqb k k0) eqn:E; simpl; [reflexivity|].
  rewrite IH. now destruct (existsb _ acc).
Qed.

Lemma has_key_In (k : K) (l : list (K * Z)) :
  has_key eqb k l = true <-> In k (map fst l).
Proof.
  unfold has_key. rewrite existsb_exists, in_map_iff. split.
  - intros [x [Hx E]]. apply eqb_eq in E. now exists x.
  - intros [x [E Hx]]. exists x. split; [assumption|]. now apply eqb_eq.
Qed.

Lemma NoDup_bump (k : K) (n : Z) (acc : list (K * Z)) :
  NoDup (map fst acc) -> NoDup (map fst (bump eqb k n acc)).
Proof.
  intro ND. rewrite keys_bump. destruct (has_key eqb k acc) eqn:E; [assumption|].
  apply NoDup_app; [assumption | constructor; [intros [] | constructor] |].
  intros x Hx [<-|[]]. apply has_key_In in Hx. congruence.
Qed.

Lemma NoDup_fold (l : list (K * Z)) : forall acc,
  NoDup (map fst acc) -> NoDup (map fst (fold_left step l acc)).
Proof.
  induction l as [|x l IH]; intros acc ND; simpl; [assumption|].
  apply IH. now apply NoDup_bump.
Qed.

Lemma assoc_In (k : K) (v : Z) (l : list (K * Z)) :
  assoc eqb k l = Some v -> In (k, v) l.
Proof.
  induction l as [|[k0 m] l IH]; simpl; [discriminate|].
  destruct (eqb k k0) eqn:E.
  - apply eqb_eq in E. subst. intros [= ->]. now left.
  - intro Hl. right. now apply IH.
Qed.

Lemma In_assoc (k : K) (v : Z) (l : list (K * Z)) :
  NoDup (map fst l) -> In (k, v) l -> assoc eqb k l = Some v.
Proof.
  induction l as [|[k0 m] l IH]; simpl; [intros _ []|].
  intros ND [E|Hin].
  - injection E as -> ->. now rewrite eqb_refl'.
  - inversion ND as [|? ? Hnot ND']; subst.
    destruct (eqb k k0) eqn:E.
    + apply eqb_eq in E. subst k0. exfalso. apply Hnot.
      apply in_map_iff. now exists (k, v).
    + now apply IH.
Qed.

(** A grouped result has one entry per key that occurs, holding the sum
    of that key's values. *)
Lemma group_sum_spec (l : list (K * Z)) (k : K) (v : Z) :
  In (k, v) (group_sum eqb l) <-> has_key eqb k l = true /\ v = key_total eqb k l.
Proof.
  unfold group_sum. fold step. split.
  - intro Hin. apply In_assoc in Hin.
    + rewrite assoc_fold in Hin. simpl in Hin.
      destruct (has_key eqb k l); [|discriminate].
      injection Hin as <-. now split.
    + apply NoDup_fold. constructor.
  - intros [Hk ->]. apply assoc_In. rewrite assoc_fold. simpl. now rewrite Hk.
Qed.

Lemma group_sum_NoDup (l : list (K * Z)) : NoDup (map fst (group_sum eqb l)).
Proof. unfold group_sum. fold step. apply NoDup_fold. constructor. Qed.
End Grouping.

(** ** The aggregation queries *)

Lemma key_total_count_pair (k : unicode * unicode) (temp : list (unicode * unicode)) :
  key_total pair_eqb k (map (fun k0 => (k0, 1)) temp) = count_pair k temp.
Proof.
  unfold count_pair. induction temp as [|a temp IH]; simpl; [reflexivity|].
  destruct (pair_eqb k a); simpl; rewrite IH; lia.
Qed.

Lemma has_key_count_pair (k : unicode * unicode) (temp : list (unicode * unicode)) :
  has_key pair_eqb k (map (fun k0 => (k0, 1)) temp) = true <-> 0 < count_pair k temp.
Proof.
  unfold has_key, count_pair. induction temp as [|a temp IH]; simpl.
  - split; [discriminate | lia].
  - destruct (pair_eqb k a); simpl.
    + split; [lia | reflexivity].
    + exact IH.
Qed.

(** The grouped counts are the multiplicities of the raw records. *)
Lemma select_counts_spec (temp : list (unicode * unicode)) k n :
  In (k, n) (select_counts temp) <-> 0 < count_pair k temp /\ n = count_pair k temp.
Proof.
  unfold select_counts. rewrite (@group_sum_spec _ _ pair_eqb_eq).
  now rewrite has_key_count_pair, key_total_count_pair.
Qed.

Lemma key_total_total_for (p : unicode) (rows : list row) :
  key_total unicode_eqb p (map (fun r => (prefix r, num_occurrences r)) rows)
  = total_for p rows.
Proof.
  unfold total_for, rows_of. induction rows as [|r rows IH]; simpl; [reflexivity|].
  rewrite (unicode_eqb_sym p (prefix r)).
  destruct (unicode_eqb (prefix r) p); simpl; now rewrite IH.
Qed.

Lemma select_totals_spec (rows : list row) p t :
  In (p, t) (select_totals rows) <-> In p (map prefix rows) /\ t = total_for p rows.
Proof.
  unfold select_totals. rewrite (@group_sum_spec _ _ unicode_eqb_eq).
  rewrite (@has_key_In _ _ unicode_eqb_eq), map_map. simpl.
  now rewrite key_total_total_for.
Qed.

(** ** The probability pass *)

Lemma fold_left_map_rows {G} (f : G -> row -> row) (gs : list G) : forall rows,
  fold_left (fun rs g => map (f g) rs) gs rows
  = map (fun r => fold_left (fun r0 g => f g r0) gs r) rows.
Proof.
  induction gs as [|g gs IH]; intro rows; simpl.
  - now rewrite map_id.
  - rewrite IH, map_map. reflexivity.
Qed.

Lemma set_probability_twice (t : Z) (r : row) :
  set_probability t (set_probability t r) = set_probability t r.
Proof. reflexivity. Qed.

Lemma update_row_stable (t : Z) (r : row) (gs : list (unicode * Z)) :
  (forall g, In g gs -> fst g = prefix r -> snd g = t) ->
  fold_left (fun r0 g => update_row g r0) gs (set_probability t r) = set_probability t r.
Proof.
  induction gs as [|g gs IH]; intro Hall; simpl; [reflexivity|].
  unfold update_row at 2. simpl.
  destruct (unicode_eqb (prefix r) (fst g)) eqn:E.
  - apply unicode_eqb_eq in E. rewrite (Hall g (or_introl eq_refl) (eq_sym E)).
    rewrite set_probability_twice. apply IH. intros; apply Hall; auto using in_cons.
  - apply IH. intros; apply Hall; auto using in_cons.
Qed.

Lemma update_row_hit (t : Z) (r : row) (gs : list (unicode * Z)) :
  (forall g, In g gs -> fst g = prefix r -> snd g = t) ->
  In (prefix r) (map fst gs) ->
  fold_left (fun r0 g => update_row g r0) gs r = set_probability t r.
Proof.
  induction gs as [|g gs IH]; intros Hall Hin; simpl in *; [contradiction|].
  unfold update_row at 2.
  destruct (unicode_eqb (prefix r) (fst g)) eqn:E.
  - apply unicode_eqb_eq in E. rewrite (Hall g (or_introl eq_refl) (eq_sym E)).
    apply update_row_stable. intros; apply Hall; auto.
  - destruct Hin as [Hg|Hin].
    + rewrite Hg, unicode_eqb_refl in E. discriminate.
    + apply IH; [intros; apply Hall; auto | assumption].
Qed.

(** After the pass every row carries its count divided by its prefix's total. *)
Lemma update_probabilities_spec (rows : list row) :
  update_probabilities rows
  = map (fun r => set_probability (total_for (prefix r) rows) r) rows.
Proof.
  unfold update_probabilities.
  change (fold_left (fun rs g => map (update_row g) rs) (select_totals rows) rows
          = map (fun r => set_probability (total_for (prefix r) rows) r) rows).
  rewrite fold_left_map_rows. apply map_ext_in. intros r Hr.
  apply update_row_hit.
  - intros [p t] Hg E. apply select_totals_spec in Hg. simpl in *. subst p. tauto.
  - apply in_map_iff. exists (prefix r, total_for (prefix r) rows). split; [reflexivity|].
    apply select_totals_spec. split; [now apply in_map | reflexivity].
Qed.

Lemma rows_of_map_set (p : unicode) (f : row -> Z) (rows : list row) :
  (forall r, unicode_eqb (prefix r) p = true -> f r = f (mkRow p [] 0 None)) ->
  rows_of p (map (fun r => set_probability (f r) r) rows)
  = map (set_probability (f (mkRow p [] 0 None))) (rows_of p rows).
Proof.
  intro Hf. unfold rows_of. induction rows as [|r rows IH]; simpl; [reflexivity|].
  destruct (unicode_eqb (prefix r) p) eqn:E; simpl; rewrite IH; [|reflexivity].
  now rewrite (Hf r E).
Qed.

Lemma rows_of_update (p : unicode) (rows : list row) :
  rows_of p (update_probabilities rows)
  = map (set_probability (total_for p rows)) (rows_of p rows).
Proof.
  rewrite update_probabilities_spec.
  apply (rows_of_map_set p (fun r => total_for (prefix r) rows)).
  intros r E. apply unicode_eqb_eq in E. simpl. now rewrite E.
Qed.

(** ** What a successful build leaves in the table *)

Section BuildResult.
Context `{UnicodeData}.

Lemma insert_counts_fresh (temp : list (unicode * unicode)) :
  insert_counts [] temp = Returns (counted_rows temp).
Proof.
  unfold insert_counts, counted_rows.
  replace (existsb _ (select_counts temp)) with false; [reflexivity|].
  symmetry. induction (select_counts temp); simpl; auto.
Qed.

Lemma build_result (lb : Z) (text : unicode) (db db' : database) :
  markov_chain db = Some [] ->
  generate_markov_chain lb text db = Returns db' ->
  exists temp,
    collect_suffixes lb text = Returns temp /\
    markov_chain db' = Some (update_probabilities (counted_rows temp)).
Proof.
  unfold generate_markov_chain. intros Hfresh.
  destruct (collect_suffixes lb text) as [temp| |]; simpl; try discriminate.
  rewrite Hfresh, insert_counts_fresh. simpl. intros [= <-].
  exists temp. now split.
Qed.

Lemma counted_rows_positive (temp : list (unicode * unicode)) (r : row) :
  In r (counted_rows temp) -> 0 < num_occurrences r.
Proof.
  unfold counted_rows. rewrite in_map_iff. intros [[k n] [<- Hin]].
  apply select_counts_spec in Hin. simpl. lia.
Qed.
End BuildResult.

Lemma Zsum_nonneg (l : list Z) : (forall z, In z l -> 0 < z) -> 0 <= Zsum l.
Proof.
  induction l as [|a l IH]; intro Hpos; simpl; [lia|].
  assert (0 < a) by (apply Hpos; now left).
  assert (0 <= Zsum l) by (apply IH; intros; apply Hpos; now right).
  lia.
Qed.

Lemma Zsum_positive (l : list Z) :
  l <> [] -> (forall z, In z l -> 0 < z) -> 0 < Zsum l.
Proof.
  destruct l as [|a l]; [congruence|]. intros _ Hpos.
  assert (0 < a) by (apply Hpos; now left).
  assert (0 <= Zsum l) by (apply Zsum_nonneg; intros; apply Hpos; now right).
  simpl. lia.
Qed.

(** ** Sums of rationals *)



Lemma total_for_positive (p : unicode) (rows : list row) :
  (forall r, In r rows -> 0 < num_occurrences r) ->
  In p (map prefix rows) -> 0 < total_for p rows.
Proof.
  intros Hpos Hin. unfold total_for. apply Zsum_positive.
  - apply in_map_iff in Hin as [r [E Hr]].
    assert (Hr' : In r (rows_of p rows)).
    { apply filter_In. split; [assumption|]. now apply unicode_eqb_eq. }
    intro E0. apply map_eq_nil in E0. rewrite E0 in Hr'. contradiction.
  - intros z Hz. apply in_map_iff in Hz as [r [<- Hr]].
    apply filter_In in Hr as [Hr _]. now apply Hpos.
Qed.


Lemma total_for_update (p : unicode) (rows : list row) :
  total_for p (update_probabilities rows) = total_for p rows.
Proof.
  unfold total_for. rewrite rows_of_update, map_map. reflexivity.
Qed.


(** ** Probability normalization *)



(** ** Small corpora *)

Section SmallCorpus.
Context `{UnicodeData}.
Variable lb : Z.

Lemma scan_zero_division (wce : Z) (matches : list unicode) :
  wce / 10 = 0 ->
  (exists m, In m matches /\ no_real_word (lower m) = false) ->
  forall counter prev unsaved temp,
    scan lb wce counter matches prev unsaved temp = Raises ZeroDivisionError.
Proof.
  intros Hdiv. induction matches as [|m rest IH]; intros [w [Hin Hreal]].
  - contradiction.
  - intros counter prev unsaved temp. simpl.
    destruct (no_real_word (lower m)) eqn:Em; simpl.
    + assert (Hrest : exists m0, In m0 rest /\ no_real_word (lower m0) = false).
      { destruct Hin as [->|Hin]; [congruence | now exists w]. }
      destruct (counter mod WRITE_TO_DB_AFTER_NUM_WORDS =? 0); now apply IH.
    + unfold record_word. rewrite Hdiv. reflexivity.
Qed.

Lemma count_char_nonneg (c : char) (s : unicode) : 0 <= count_char c s.
Proof. unfold count_char. lia. Qed.

Lemma collect_zero_division (text : unicode) :
  count_char chr_space text + 1 < 10 ->
  (exists w, In w (finditer text) /\ no_real_word (lower w) = false) ->
  collect_suffixes lb text = Raises ZeroDivisionError.
Proof.
  intros Hsmall Hreal. unfold collect_suffixes.
  rewrite scan_zero_division; [reflexivity | | assumption].
  apply Z.div_small. pose proof (count_char_nonneg chr_space text). lia.
Qed.
End SmallCorpus.

(** C9. A text whose word-count estimate (spaces plus one) is below 10 and
    that contains at least one real word makes [generate_markov_chain] raise
    [ZeroDivisionError]; nothing on the way up catches it, so [input] (and so
    the constructor) fails with the same exception instead of completing. *)
Theorem small_corpus_raises_zero_division `{UnicodeData}
    (lb : Z) (text : unicode) (db : database) :
  count_char chr_space text + 1 < 10 ->
  (exists w, In w (finditer text) /\ no_real_word (lower w) = false) ->
  generate_markov_chain lb text db = Raises ZeroDivisionError /\
  forall (target : option unicode) (path : unicode) (w : world),
    table_exists db = false ->
    lookup path (files w) = Some text ->
    input (mkChain lb target db) path w = Raises ZeroDivisionError.
Proof.
  intros Hsmall Hreal.
  assert (Hgen : forall d, generate_markov_chain lb text d = Raises ZeroDivisionError).
  { intro d. unfold generate_markov_chain.
    now rewrite collect_zero_division. }
  split; [apply Hgen|].
  intros target path w Habsent Hfile. unfold input. simpl.
  rewrite Habsent, Hfile, Hgen. reflexivity.
Qed.

Lemma small_corpus_raises_zero_division_witness :
  @generate_markov_chain ascii_table 3 (u "Cats run. Dogs run.") empty_database
  = Raises ZeroDivisionError /\
  forall (target : option unicode) (path : unicode) (w : world),
    table_exists empty_database = false ->
    lookup path (files w) = Some (u "Cats run. Dogs run.") ->
    @input ascii_table (mkChain 3 target empty_database) path w
    = Raises ZeroDivisionError.
Proof.
  apply (@small_corpus_raises_zero_division ascii_table 3
           (u "Cats run. Dogs run.") empty_database).
  - vm_compute. reflexivity.
  - exists (u "Cats"). split; [vm_compute; left; reflexivity | reflexivity].
Defined.

(** C2. On the corpus ["Cats run. Dogs run."] the build does not succeed:
    for every lookback and every database it raises [ZeroDivisionError] at
    the progress computation (the estimate is 4, and 4/10 is 0). The root
    prefix entry for ["dogs"] is recorded as soon as the same words come with
    enough spaces for the estimate to reach 10. *)
Theorem cats_dogs_build_raises (lb : Z) (db : database) :
  @generate_markov_chain ascii_table lb (u "Cats run. Dogs run.") db
  = Raises ZeroDivisionError /\
  exists r, In r (table_of (build_ascii 1 "Cats run. Dogs run.      ")) /\
            prefix r = root_prefix /\ suffix r = u "dogs".
Proof.
  split.
  - unfold generate_markov_chain. rewrite collect_zero_division; [reflexivity | |].
    + vm_compute. reflexivity.
    + exists (u "Cats"). split; [vm_compute; left; reflexivity | reflexivity].
  - vm_compute. eexists. split; [right; right; left; reflexivity | split; reflexivity].
Qed.

(** ** Determinism of the build *)


Section BuiltTable.
Context `{UnicodeData}.

(** Every row of a built table, spelled out. *)
Lemma built_row (temp : list (unicode * unicode)) (r : row) :
  In r (update_probabilities (counted_rows temp)) ->
  let rows := update_probabilities (counted_rows temp) in
  num_occurrences r = count_pair (prefix r, suffix r) temp /\
  0 < num_occurrences r /\
  0 < total_for (prefix r) rows /\
  probability r
  = Some (inject_Z (num_occurrences r) / inject_Z (total_for (prefix r) rows))%Q.
Proof.
  intros Hin rows. subst rows. rewrite total_for_update.
  rewrite update_probabilities_spec in Hin.
  apply in_map_iff in Hin as [r1 [<- Hr1]]. simpl.
  assert (Hpos : 0 < total_for (prefix r1) (counted_rows temp)).
  { apply total_for_positive; [apply counted_rows_positive | now apply in_map]. }
  pose proof (counted_rows_positive _ _ Hr1) as Hn.
  unfold counted_rows in Hr1. apply in_map_iff in Hr1 as [[[p s] n] [<- Hg]].
  apply select_counts_spec in Hg as [_ ->]. simpl in *.
  repeat split; try assumption.
  destruct (Z.eqb_spec (total_for p (counted_rows temp)) 0); [lia | reflexivity].
Qed.

Lemma built_row_exists (temp : list (unicode * unicode)) (k : unicode * unicode) :
  0 < count_pair k temp ->
  exists r, In r (update_probabilities (counted_rows temp)) /\
            (prefix r, suffix r) = k.
Proof.
  intro Hk. rewrite update_probabilities_spec.
  exists (set_probability (total_for (fst k) (counted_rows temp))
            (mkRow (fst k) (snd k) (count_pair k temp) None)).
  split; [|now destruct k].
  apply in_map_iff. exists (mkRow (fst k) (snd k) (count_pair k temp) None).
  split; [reflexivity|]. unfold counted_rows. apply in_map_iff.
  exists (k, count_pair k temp). split; [reflexivity|].
  now apply select_counts_spec.
Qed.
End BuiltTable.



(** ** The random order *)

Lemma extract_permutation {A} (l : list A) : forall i x r,
  extract i l = Some (x, r) -> Permutation l (x :: r).
Proof.
  induction l as [|a l IH]; intros i x r; destruct i as [|j]; simpl;
    try discriminate.
  - intros [= -> ->]. apply Permutation_refl.
  - destruct (extract j l) as [[y r']|] eqn:E; [|discriminate].
    intros [= -> <-]. apply IH in E.
    eapply Permutation_trans; [apply perm_skip, E | apply perm_swap].
Qed.

Lemma extract_some {A} (l : list A) : forall i,
  (i < List.length l)%nat -> exists x r, extract i l = Some (x, r).
Proof.
  induction l as [|a l IH]; intros i Hi; destruct i as [|j]; simpl in *;
    try lia; [now eauto|].
  destruct (IH j) as [x [r E]]; [lia|]. rewrite E. eauto.
Qed.

(** The order chosen by the tape is a permutation of the rows selected. *)
Lemma order_by_random_permutation {A} (n : nat) : forall (l : list A) (g : tape),
  n = List.length l -> Permutation l (fst (order_by_random_n n l g)).
Proof.
  induction n as [|m IH]; intros l g Hn; simpl.
  - destruct l; [apply Permutation_refl | discriminate].
  - destruct (extract_some l (i := N.to_nat (g O) mod List.length l)) as [x [r E]].
    { apply Nat.mod_upper_bound. lia. }
    rewrite E. pose proof (extract_permutation _ _ E) as P.
    specialize (IH r (fun k => g (S k))).
    destruct (order_by_random_n m r (fun k => g (S k))) as [o g''] eqn:Eo. simpl in *.
    eapply Permutation_trans; [exact P|]. apply perm_skip. apply IH.
    apply Permutation_length in P. simpl in P. lia.
Qed.

(** ** The sampler *)

Lemma accumulate_returns (random_choice : Q) (rows : list (unicode * option Q)) :
  forall i s, accumulate random_choice i rows = Returns (Some s) ->
              exists p, In (s, Some p) rows.
Proof.
  induction rows as [|[s0 [p|]] rows IH]; intros i s; simpl; try discriminate.
  destruct (Qle_bool random_choice (i + p)).
  - intros [= ->]. exists p. now left.
  - intro E. destruct (IH _ _ E) as [p' Hp']. exists p'. now right.
Qed.

Lemma select_suffixes_In (rows : list row) (from_prefix s : unicode) (p : option Q) :
  In (s, p) (select_suffixes rows from_prefix) ->
  exists r, In r rows /\ prefix r = from_prefix /\ suffix r = s /\ probability r = p.
Proof.
  unfold select_suffixes. rewrite in_map_iff. intros [r [E Hr]].
  apply filter_In in Hr as [Hr Hp]. apply unicode_eqb_eq in Hp.
  injection E as <- <-. now exists r.
Qed.

Section Sampler.
Context `{UnicodeData}.
Variable self : MarkovChain.

Lemma choose_next_word_unfold (table : list row) (from_prefix : unicode) (g : tape) :
  markov_chain (conn self) = Some table ->
  exists (r : Q) (rows : list (unicode * option Q)) (g' : tape),
    random_random g = Returns (r, fun n => g (S n)) /\
    Permutation (select_suffixes table from_prefix) rows /\
    choose_next_word self from_prefix g
    = match accumulate r 0 rows with
      | Returns w => Returns (w, g')
      | Raises e => Raises e
      | OutOfFuel => OutOfFuel
      end.
Proof.
  intro Ht. unfold choose_next_word, gbind, random_random, order_by_random.
  simpl. rewrite Ht.
  set (sel := select_suffixes table from_prefix).
  pose proof (@order_by_random_permutation _ (List.length sel) sel
                (fun n => g (S n)) eq_refl) as P.
  destruct (order_by_random_n (List.length sel) sel (fun n => g (S n))) as [rows g'].
  eexists _, rows, g'. repeat split. exact P.
Qed.

(** No rows for the prefix: nothing is returned, whatever the tape says. *)
Lemma choose_next_word_none (table : list row) (from_prefix : unicode) (g : tape) :
  markov_chain (conn self) = Some table ->
  select_suffixes table from_prefix = [] ->
  exists g', choose_next_word self from_prefix g = Returns (None, g').
Proof.
  intros Ht Hsel.
  destruct (choose_next_word_unfold from_prefix g Ht) as [r [rows [g' [_ [P E]]]]].
  rewrite Hsel in P. apply Permutation_nil in P. subst rows.
  exists g'. exact E.
Qed.

(** A returned suffix is the suffix of a row of that prefix. *)
Lemma choose_next_word_some (table : list row) (from_prefix s : unicode) (g g' : tape) :
  markov_chain (conn self) = Some table ->
  choose_next_word self from_prefix g = Returns (Some s, g') ->
  exists r q, In r table /\ prefix r = from_prefix /\ suffix r = s /\
              probability r = Some q.
Proof.
  intros Ht E.
  destruct (choose_next_word_unfold from_prefix g Ht) as [x [rows [g1 [_ [P E1]]]]].
  rewrite E1 in E.
  destruct (accumulate x 0 rows) as [w| |] eqn:Ea; try discriminate.
  injection E as -> _.
  destruct (accumulate_returns _ _ _ Ea) as [q Hq].
  apply (Permutation_in _ (Permutation_sym P)) in Hq.
  apply select_suffixes_In in Hq as [r [? [? [? ?]]]]. now exists r, q.
Qed.
End Sampler.

(** C6. [choose_next_word] returns [None] whenever the table has no row for
    the prefix; and on a table produced by the build, for every prefix and
    every content of the random tape, a suffix it returns belongs to a row of
    that prefix whose recorded probability is positive, so never zero. *)
Theorem choose_next_word_bounded `{UnicodeData} (self : MarkovChain) (table : list row) :
  markov_chain (conn self) = Some table ->
  (forall from_prefix g,
     select_suffixes table from_prefix = [] ->
     exists g', choose_next_word self from_prefix g = Returns (None, g')) /\
  (forall lb text db,
     markov_chain db = Some [] ->
     generate_markov_chain lb text db = Returns (conn self) ->
     forall from_prefix g s g',
       choose_next_word self from_prefix g = Returns (Some s, g') ->
       (exists r, In r table /\ prefix r = from_prefix /\ suffix r = s) /\
       (forall r, In r table -> prefix r = from_prefix -> suffix r = s ->
                  exists q, probability r = Some q /\ (0 < q)%Q)).
Proof.
  intro Ht. split.
  - intros from_prefix g Hsel. now apply choose_next_word_none with (table := table).
  - intros lb text db Hfresh Hbuild from_prefix g s g' E.
    destruct (choose_next_word_some _ _ _ Ht E) as [r [q [Hr [Hp [Hs Hq]]]]].
    split; [now exists r|].
    destruct (build_result _ _ _ Hfresh Hbuild) as [temp [_ Htable]].
    rewrite Ht in Htable. injection Htable as ->.
    intros r' Hr' _ _.
    destruct (built_row _ _ Hr') as [_ [Hn [Htot Hprob]]].
    eexists. split; [exact Hprob|].
    unfold Qlt, Qdiv, Qmult, Qinv, inject_Z. simpl.
    destruct (total_for (prefix r') (update_probabilities (counted_rows temp)));
      simpl; lia.
Qed.

Lemma choose_next_word_bounded_witness :
  (exists g', choose_next_word pets_chain (u "zebra") (fun _ => 0%N)
              = Returns (None, g')) /\
  (exists s,
     (exists r, In r pets_rows /\ prefix r = u "the" /\ suffix r = s) /\
     (forall r, In r pets_rows -> prefix r = u "the" -> suffix r = s ->
                exists q, probability r = Some q /\ (0 < q)%Q)).
Proof.
  destruct (@choose_next_word_bounded ascii_table pets_chain pets_rows eq_refl)
    as [Hnone Hsome].
  split.
  - apply Hnone. reflexivity.
  - eexists.
    eapply (Hsome 2 (u pets_corpus) (init_database empty_database) eq_refl)
      with (from_prefix := u "the") (g := fun _ => 0%N).
    + vm_compute. reflexivity.
    + vm_compute. reflexivity.
Defined.

(** ** Cache reuse *)

Lemma lookup_store {V} (k : unicode) (v : V) (l : list (unicode * V)) :
  lookup k (store k v l) = Some v.
Proof.
  induction l as [|[k' v'] l IH]; simpl.
  - now rewrite unicode_eqb_refl.
  - destruct (unicode_eqb k k') eqn:E; simpl.
    + now rewrite unicode_eqb_refl.
    + now rewrite E.
Qed.

Section Cache.
Context `{UnicodeData}.

Lemma build_creates_table (lb : Z) (text : unicode) (db db' : database) :
  generate_markov_chain lb text db = Returns db' -> table_exists db' = true.
Proof.
  unfold generate_markov_chain.
  destruct (collect_suffixes lb text); simpl; try discriminate.
  destruct (markov_chain db); try discriminate.
  destruct (insert_counts _ _); simpl; try discriminate.
  now intros [= <-].
Qed.

Lemma input_cached (self : MarkovChain) (path : unicode) (w : world) :
  table_exists (conn self) = true -> input self path w = Returns (self, w).
Proof. intro E. unfold input. now rewrite E. Qed.

Lemma input_rebuilds (self self' : MarkovChain) (path : unicode) (w w' : world) :
  table_exists (conn self) = false ->
  input self path w = Returns (self', w') ->
  exists text,
    lookup path (files w) = Some text /\
    opened w' = path :: opened w /\
    generate_markov_chain (lookback self) text
      (mkDb (Some []) (markov_chain_temp (conn self))) = Returns (conn self') /\
    self' = mkChain (lookback self) (db_file self) (conn self') /\
    w' = commit (db_file self) (conn self')
           (mkWorld (files w) (disk w) (path :: opened w)).
Proof.
  intros E. unfold input. rewrite E.
  destruct (lookup path (files w)) as [text|]; [|discriminate].
  unfold init_database. unfold table_exists in E.
  destruct (markov_chain (conn self)); [discriminate|].
  destruct (generate_markov_chain _ _ _) as [conn2| |] eqn:G; simpl; try discriminate.
  intros [= <- <-]. exists text. simpl. repeat split; try assumption.
  now destruct (db_file self).
Qed.
End Cache.

(** C5. When the table [markov_chain] already exists in the database of
    this (input file, lookback) identity, [input] returns the object and the
    world as they were: no file is opened and no row changes. Only when the
    table is absent does a successful [input] open the file and build from
    the empty table. Consequently a second construction for the same
    identity after a successful first one changes nothing. *)
Theorem cache_is_reused `{UnicodeData} :
  (forall self path w,
     table_exists (conn self) = true -> input self path w = Returns (self, w)) /\
  (forall self self' path w w',
     table_exists (conn self) = false ->
     input self path w = Returns (self', w') ->
     exists text,
       lookup path (files w) = Some text /\
       opened w' = path :: opened w /\
       generate_markov_chain (lookback self) text
         (mkDb (Some []) (markov_chain_temp (conn self))) = Returns (conn self')) /\
  (forall input_file lb w mc w',
     init input_file lb false w = Returns (mc, w') ->
     init input_file lb false w' = Returns (mc, w')).
Proof.
  split; [|split].
  - intros. now apply input_cached.
  - intros self self' path w w' E I.
    apply input_rebuilds in I; [|exact E].
    destruct I as [text [? [? [? _]]]]. now exists text.
  - intros input_file lb w mc w'. unfold init.
    destruct input_file as [[|c f]|]; try (now intros [= <- <-]).
    cbv beta zeta iota.
    set (name := cache_name _ lb).
    destruct (lookup name (disk w)) as [db|] eqn:L.
    + destruct (table_exists db) eqn:T.
      * rewrite input_cached by exact T. intros [= <- <-].
        rewrite L. now rewrite input_cached.
      * intro I. apply input_rebuilds in I; [|exact T].
        destruct I as [text [_ [_ [G [-> ->]]]]].
        simpl. rewrite lookup_store. apply input_cached. simpl.
        now apply build_creates_table in G.
    + intro I. apply input_rebuilds in I; [|reflexivity].
      destruct I as [text [_ [_ [G [-> ->]]]]].
      simpl. rewrite lookup_store. apply input_cached. simpl.
      now apply build_creates_table in G.
Qed.

Lemma cache_is_reused_witness :
  @input ascii_table (fst pets_cached) (u "pets.txt") (snd pets_cached)
  = Returns (fst pets_cached, snd pets_cached) /\
  (exists text,
     lookup (u "pets.txt") (files pets_world) = Some text /\
     opened (snd pets_cached) = u "pets.txt" :: opened pets_world /\
     @generate_markov_chain ascii_table 2 text (mkDb (Some []) None)
     = Returns (conn (fst pets_cached))) /\
  @init ascii_table (Some (u "pets.txt")) 2 false (snd pets_cached)
  = Returns (fst pets_cached, snd pets_cached).
Proof.
  destruct (@cache_is_reused ascii_table) as [Hhit [Hmiss Hagain]].
  split; [|split].
  - apply Hhit. reflexivity.
  - apply (Hmiss (mkChain 2 (Some (cache_name (Some (u "pets.txt")) 2)) empty_database)
                 (fst pets_cached) (u "pets.txt") pets_world (snd pets_cached)).
    + reflexivity.
    + vm_compute. reflexivity.
  - apply (Hagain (Some (u "pets.txt")) 2 pets_world).
    vm_compute. reflexivity.
Defined.

(** ** The random primitives *)

Lemma random_random_spec (g : tape) :
  exists r : Q,
    random_random g = Returns (r, fun n => g (S n)) /\ (0 <= r)%Q /\ (r < 1)%Q.
Proof.
  unfold random_random. simpl.
  exists (inject_Z (Z.of_N (g O) mod 2 ^ 53) / inject_Z (2 ^ 53))%Q.
  split; [reflexivity|].
  pose proof (Z.mod_pos_bound (Z.of_N (g O)) (2 ^ 53) ltac:(lia)) as [Hlo Hhi].
  assert (Hp : (0 < inject_Z (2 ^ 53))%Q) by (unfold Qlt; simpl; lia).
  split.
  - apply Qle_shift_div_l; [exact Hp|]. rewrite Qmult_0_l.
    unfold Qle. simpl. lia.
  - apply Qlt_shift_div_r; [exact Hp|]. rewrite Qmult_1_l.
    unfold Qlt. simpl. lia.
Qed.



Lemma slice_last_spec {A} (n : Z) (l : list A) :
  1 <= n <= Z.of_nat (List.length l) ->
  l = firstn (List.length l - Z.to_nat n) l ++ slice_last n l /\
  Z.of_nat (List.length (slice_last n l)) = n.
Proof.
  intro Hn. unfold slice_last. destruct (Z.eqb_spec n 0); [lia|]. split.
  - symmetry. apply firstn_skipn.
  - rewrite length_skipn. lia.
Qed.

(** ** The growth loop *)

Section Growth.
Variable self : MarkovChain.

Lemma try_windows_nil (q : list unicode) (suggestion : option unicode) (g : tape) :
  try_windows self [] q suggestion g = Returns (suggestion, g).
Proof. reflexivity. Qed.




End Growth.

Section Sentence.
Context `{UnicodeData}.
Variable self : MarkovChain.


Lemma generate_sentence_retry (fuel : nat) (start_word : option unicode)
    (min_words max_length : Z) (prevent_recursion : bool)
    (g g1 g2 : tape) (q0 q : list unicode) :
  seed self start_word g = Returns (q0, g1) ->
  grow self fuel q0 g1 = Returns (q, g2) ->
  wants_retry q (join (u " ") q) min_words max_length prevent_recursion = true ->
  exists r : Q,
    random_random g2 = Returns (r, fun n => g2 (S n)) /\
    generate_sentence self (S fuel) start_word min_words max_length prevent_recursion g
    = generate_sentence self fuel None 5 140 (negb (Qle_bool 1 (r * 10)))
        (fun n => g2 (S n)).
Proof.
  intros Hs Hg Hw. destruct (random_random_spec g2) as [r [Hr _]].
  exists r. split; [exact Hr|].
  simpl. unfold gbind. now rewrite Hs, Hg, Hw, Hr.
Qed.
End Sentence.



(** ** Seeding *)

Section Seeding.
Context `{UnicodeData}.
Variable self : MarkovChain.

Lemma seed_without_start_word (g : tape) :
  seed self None g =
  match choose_next_word self root_prefix g with
  | Returns (Some w, g1) => Returns ([w], g1)
  | Returns (None, g1) => Raises (AttributeError "capitalize")
  | Raises e => Raises e
  | OutOfFuel => OutOfFuel
  end.
Proof.
  unfold seed, gbind, gret. simpl.
  destruct (choose_next_word self root_prefix g) as [[[w|] g1]| |]; reflexivity.
Qed.

Lemma seed_unknown_start_word (c : char) (s : unicode) (g g1 g2 : tape) :
  choose_next_word self (lower (c :: s)) g = Returns (None, g1) ->
  choose_next_word self (c :: s) g1 = Returns (None, g2) ->
  seed self (Some (c :: s)) g = Raises (AttributeError "capitalize").
Proof.
  intros H1 H2. unfold seed, gbind. rewrite H1. simpl truthy. cbv iota.
  now rewrite H2.
Qed.
End Seeding.

(** C10, as the code has it. When seeding obtains no continuation (for the
    root prefix if no start word is given, or for the lowered and then the
    bare start word), [generate_sentence] raises [AttributeError] from
    [first_word.capitalize()] at line 143, right after the queue was seeded
    with [None]: no sentence, empty or truncated, is returned, and the
    inspection of the queue's tail at line 145 is never reached. *)
Theorem unseeded_sentence_raises `{UnicodeData} (self : MarkovChain) (fuel : nat)
    (min_words max_length : Z) (prevent_recursion : bool) (g : tape) :
  (forall g1,
     choose_next_word self root_prefix g = Returns (None, g1) ->
     generate_sentence self (S fuel) None min_words max_length prevent_recursion g
     = Raises (AttributeError "capitalize")) /\
  (forall c s g1 g2,
     choose_next_word self (lower (c :: s)) g = Returns (None, g1) ->
     choose_next_word self (c :: s) g1 = Returns (None, g2) ->
     generate_sentence self (S fuel) (Some (c :: s)) min_words max_length
       prevent_recursion g
     = Raises (AttributeError "capitalize")).
Proof.
  split.
  - intros g1 E. cbn [generate_sentence]. unfold gbind at 1.
    now rewrite seed_without_start_word, E.
  - intros c s g1 g2 E1 E2. cbn [generate_sentence]. unfold gbind at 1.
    now rewrite (@seed_unknown_start_word _ self c s g g1 g2 E1 E2).
Qed.

Lemma unseeded_sentence_raises_witness :
  @generate_sentence ascii_table empty_chain 1 None 5 140 false (fun _ => 0%N)
  = Raises (AttributeError "capitalize") /\
  @generate_sentence ascii_table empty_chain 1 (Some (u "Zebra")) 5 140 false (fun _ => 0%N)
  = Raises (AttributeError "capitalize").
Proof.
  destruct (@unseeded_sentence_raises ascii_table empty_chain 0 5 140 false
              (fun _ => 0%N)) as [Hroot Hword].
  split.
  - eapply Hroot. vm_compute. reflexivity.
  - eapply Hword; vm_compute; reflexivity.
Defined.

(** C10, as stated, fails: on a chain without rows the exception is the one
    of [first_word.capitalize()], not one raised by the inspection of the
    queue's tail, [word_queue[-1].find(".")]. *)
Lemma empty_chain_raises_before_tail_inspection :
  @generate_sentence ascii_table empty_chain 1 None 5 140 false (fun _ => 0%N)
  = Raises (AttributeError "capitalize") /\
  @generate_sentence ascii_table empty_chain 1 None 5 140 false (fun _ => 0%N)
  <> Raises (AttributeError "find").
Proof.
  split; [reflexivity | discriminate].
Qed.

(** ** Retries *)

(** A prefix with a single suffix of probability at least 1 always yields
    that suffix; two numbers are read from the tape. *)
Lemma choose_next_word_single (self : MarkovChain) (table : list row)
    (from_prefix s : unicode) (q : Q) (g : tape) :
  markov_chain (conn self) = Some table ->
  select_suffixes table from_prefix = [(s, Some q)] ->
  (1 <= q)%Q ->
  choose_next_word self from_prefix g = Returns (Some s, fun n => g (S (S n))).
Proof.
  intros Ht Hsel Hq.
  destruct (random_random_spec g) as [r [Hr [_ Hr1]]].
  unfold choose_next_word, gbind. rewrite Hr, Ht.
  unfold order_by_random. rewrite Hsel.
  cbn [List.length order_by_random_n next]. rewrite Nat.mod_1_r.
  cbn [extract accumulate].
  replace (Qle_bool r (0 + q)) with true; [reflexivity|].
  symmetry. apply Qle_bool_iff. rewrite Qplus_0_l.
  apply Qle_trans with 1%Q; [now apply Qlt_le_weak | exact Hq].
Qed.

Lemma hi_seed (g : tape) :
  @seed ascii_table hi_chain None g = Returns ([u "hi."], fun n => g (S (S n))).
Proof.
  rewrite seed_without_start_word.
  rewrite (@choose_next_word_single hi_chain
             (table_of (Returns hi_db)) root_prefix (u "hi.") (9 # 9) g);
    [reflexivity | reflexivity | reflexivity | discriminate].
Qed.

Lemma hi_never_returns (fuel : nat) :
  forall (max_length : Z) (prevent_recursion : bool) (g : tape),
    @generate_sentence ascii_table hi_chain fuel None 5 max_length prevent_recursion g
    = OutOfFuel.
Proof.
  induction fuel as [|fuel IH]; intros max_length prevent_recursion g; [reflexivity|].
  destruct fuel as [|fuel'].
  - cbn [generate_sentence]. unfold gbind. now rewrite hi_seed.
  - destruct (@generate_sentence_retry ascii_table hi_chain (S fuel') None 5 max_length
                prevent_recursion g (fun n => g (S (S n))) (fun n => g (S (S n)))
                [u "hi."] [u "hi."]) as [r [_ E]].
    + apply hi_seed.
    + reflexivity.
    + reflexivity.
    + rewrite E. apply IH.
Qed.

(** C3. On the chain built from [hi_corpus] every sentence is the single
    word ["hi."], so the word-count test of line 163 holds on every call. A
    call made with [prevent_recursion] set, as a retry with the escape flag
    is, therefore calls [generate_sentence] again instead of returning its
    sentence, and so on: no amount of fuel lets any call return, whatever
    the random tape holds. *)
Theorem escape_flag_keeps_retrying (fuel : nat) (g : tape) :
  wants_retry [u "hi."] (u "hi.") 5 140 true = true /\
  (exists r : Q,
     @generate_sentence ascii_table hi_chain (S (S fuel)) None 5 140 true g
     = @generate_sentence ascii_table hi_chain (S fuel) None 5 140
         (negb (Qle_bool 1 (r * 10))) (fun n => g (S (S (S n))))) /\
  @generate_sentence ascii_table hi_chain fuel None 5 140 true g = OutOfFuel.
Proof.
  split; [reflexivity|]. split; [|apply hi_never_returns].
  destruct (@generate_sentence_retry ascii_table hi_chain (S fuel) None 5 140 true
              g (fun n => g (S (S n))) (fun n => g (S (S n)))
              [u "hi."] [u "hi."]) as [r [_ E]].
  - apply hi_seed.
  - reflexivity.
  - reflexivity.
  - exists r. exact E.
Qed.

(** C4. The sentence returned for the chain built from [count_corpus] is
    the queue joined by single spaces with its first token as it was queued,
    in lower case: the capitalized string computed while seeding is replaced
    at line 161 and never returned. *)
Theorem sentence_is_not_capitalized :
  exists g' : tape,
    @generate_sentence ascii_table count_chain 20 None 5 140 false (fun _ => 0%N)
    = Returns (u "one two three four five six seven eight nine.", g') /\
    u "one two three four five six seven eight nine."
    = join (u " ") [u "one"; u "two"; u "three"; u "four"; u "five"; u "six";
                    u "seven"; u "eight"; u "nine."] /\
    u "one two three four five six seven eight nine."
    <> join (u " ") [@capitalize ascii_table (u "one"); u "two"; u "three"; u "four";
                     u "five"; u "six"; u "seven"; u "eight"; u "nine."].
Proof.
  eexists. split; [vm_compute; reflexivity|].
  split; [reflexivity | vm_compute; discriminate].
Qed.


(** * Further properties of the code *)

(** ** Tokens *)

Section Tokens.
Context `{UnicodeData}.

Lemma finditer_run_tokens (input : unicode) : forall run t,
  forallb word_re_class run = true ->
  In t (finditer_run run input) ->
  t <> [] /\ forallb word_re_class t = true.
Proof.
  induction input as [|c rest IH]; intros run t Hrun; simpl.
  - destruct run as [|r0 run']; [intros [] | intros [<-|[]]].
    split; [discriminate | exact Hrun].
  - destruct (word_re_class c) eqn:Ec.
    + apply IH. rewrite forallb_app, Hrun. simpl. now rewrite Ec.
    + destruct run as [|r0 run'].
      * now apply IH.
      * intros [<-|Hin]; [split; [discriminate | exact Hrun] | now apply (IH [])].
Qed.

Lemma finditer_run_separator (a b : unicode) (sep : char) :
  word_re_class sep = false ->
  forall run, finditer_run run (a ++ sep :: b) = finditer_run run a ++ finditer b.
Proof.
  intro Hsep. unfold finditer. induction a as [|c a IH]; intro run; simpl.
  - rewrite Hsep. now destruct run.
  - destruct (word_re_class c).
    + apply IH.
    + destruct run; [apply IH | simpl; f_equal; apply IH].
Qed.

End Tokens.

(** X1. Every match of [WORD_RE] is a non-empty run of class characters
    (so it holds no space), and lowering keeps it non-empty. *)
Theorem tokens_are_nonempty_runs `{UnicodeData} (input t : unicode) :
  In t (finditer input) ->
  t <> [] /\ forallb word_re_class t = true /\ lower t <> [].
Proof.
  intro Hin. destruct (@finditer_run_tokens _ input [] t eq_refl Hin) as [Hne Hall].
  repeat split; try assumption.
  destruct t; [congruence | discriminate].
Qed.

Lemma tokens_are_nonempty_runs_witness :
  u "Cats" <> [] /\ forallb (@word_re_class ascii_table) (u "Cats") = true /\
  @lower ascii_table (u "Cats") <> [].
Proof.
  apply (@tokens_are_nonempty_runs ascii_table (u "Cats run. Dogs run.") (u "Cats")).
  vm_compute. left. reflexivity.
Defined.

(** X2. Tokenizing is local to separators: a character outside the class
    splits the text into two parts that are tokenized independently. *)
Theorem finditer_splits_at_separator `{UnicodeData} (a b : unicode) (sep : char) :
  word_re_class sep = false ->
  finditer (a ++ sep :: b) = finditer a ++ finditer b.
Proof. intro Hsep. now apply finditer_run_separator. Qed.

Lemma finditer_splits_at_separator_witness :
  @finditer ascii_table (u "Cats run." ++ chr_space :: u "Dogs run.")
  = @finditer ascii_table (u "Cats run.") ++ @finditer ascii_table (u "Dogs run.").
Proof.
  apply (@finditer_splits_at_separator ascii_table). reflexivity.
Defined.



(** ** The tracked prefixes are the trailing windows *)

Lemma join_snoc (sep w : unicode) (l : list unicode) :
  l <> [] -> join sep (l ++ [w]) = join sep l ++ sep ++ w.
Proof.
  induction l as [|x l IH]; [congruence|]. intros _.
  destruct l as [|y l]; [reflexivity|].
  change (join sep ((x :: y :: l) ++ [w])) with (x ++ sep ++ join sep ((y :: l) ++ [w])).
  rewrite IH by discriminate.
  change (join sep (x :: y :: l)) with (x ++ sep ++ join sep (y :: l)).
  now rewrite <- !app_assoc.
Qed.

Lemma descending_snoc (m : nat) :
  descending (S m) = map (fun n => n + 1) (descending m) ++ [1].
Proof.
  induction m as [|m IH]; [reflexivity|].
  change (descending (S (S m))) with (Z.of_nat (S (S m)) :: descending (S m)).
  rewrite IH at 1. simpl. f_equal. lia.
Qed.

Lemma In_descending (m : nat) (n : Z) :
  In n (descending m) <-> 1 <= n <= Z.of_nat m.
Proof.
  induction m as [|m IH]; simpl; [lia|]. rewrite IH. lia.
Qed.

Lemma length_descending (m : nat) : List.length (descending m) = m.
Proof. induction m as [|m IH]; simpl; [reflexivity | now rewrite IH]. Qed.

Lemma slice_last_snoc {A} (n : Z) (l : list A) (x : A) :
  0 <= n <= Z.of_nat (List.length l) ->
  slice_last (n + 1) (l ++ [x]) = skipn (List.length l - Z.to_nat n) l ++ [x].
Proof.
  intro Hn. unfold slice_last. destruct (Z.eqb_spec (n + 1) 0); [lia|].
  rewrite length_app. simpl.
  replace (List.length l + 1 - Z.to_nat (n + 1))%nat
    with (List.length l - Z.to_nat n)%nat by lia.
  rewrite skipn_app.
  replace (List.length l - Z.to_nat n - List.length l)%nat with O by lia.
  reflexivity.
Qed.

Lemma slice_last_nonempty {A} (n : Z) (l : list A) :
  1 <= n <= Z.of_nat (List.length l) -> slice_last n l <> [].
Proof.
  intros Hn E. destruct (slice_last_spec l Hn) as [_ Hlen].
  rewrite E in Hlen. simpl in Hlen. lia.
Qed.

Lemma slice_last_suffix {A} (a b : list A) :
  b <> [] -> slice_last (Z.of_nat (List.length b)) (a ++ b) = b.
Proof.
  intro Hb. unfold slice_last.
  destruct (Z.eqb_spec (Z.of_nat (List.length b)) 0) as [E|_].
  - destruct b; [congruence | simpl in E; lia].
  - rewrite length_app, Nat2Z.id.
    replace (List.length a + List.length b - List.length b)%nat
      with (List.length a + 0)%nat by lia.
    rewrite skipn_app, Nat.add_0_r, skipn_all.
    replace (List.length a - List.length a)%nat with O by lia. reflexivity.
Qed.

Lemma last_opt_snoc {A} (l : list A) (x : A) : last_opt (l ++ [x]) = Some x.
Proof. unfold last_opt. now rewrite rev_app_distr. Qed.

Lemma last_opt_some {A} (l : list A) (x : A) :
  last_opt l = Some x -> exists a, l = a ++ [x].
Proof.
  unfold last_opt. destruct (rev l) as [|y r] eqn:E; [discriminate|].
  intros [= ->]. exists (rev r).
  rewrite <- (rev_involutive l), E. reflexivity.
Qed.

Lemma last_opt_nonempty {A} (l : list A) : l <> [] -> exists x, last_opt l = Some x.
Proof.
  intro Hl. unfold last_opt. destruct (rev l) as [|y r] eqn:E; [|now exists y].
  apply (f_equal (@rev A)) in E. rewrite rev_involutive in E. now subst.
Qed.

Lemma length_windows (lb : Z) (seen : list unicode) :
  List.length (windows lb seen) = Nat.min (List.length seen) (Z.to_nat lb).
Proof. unfold windows. now rewrite length_map, length_descending. Qed.

Lemma In_windows (lb : Z) (seen : list unicode) (p : unicode) :
  In p (windows lb seen) <->
  exists n, 1 <= n <= Z.of_nat (List.length seen) /\ n <= lb /\
            p = join (u " ") (slice_last n seen).
Proof.
  unfold windows. rewrite in_map_iff. split.
  - intros [n [<- Hn]]. apply In_descending in Hn. exists n. repeat split; lia.
  - intros [n [Hn [Hlb ->]]]. exists n. split; [reflexivity|].
    apply In_descending. lia.
Qed.

(** What the code makes of the tracked prefixes when a real word arrives:
    drop the longest if there are [lb] already, extend the others by the
    word, add the word itself. *)
Lemma windows_snoc (lb : Z) (seen : list unicode) (w : unicode) :
  1 <= lb ->
  exists popped,
    (if Z.of_nat (List.length (windows lb seen)) >=? lb
     then match windows lb seen with
          | [] => Raises IndexError
          | _ :: t => Returns t
          end
     else Returns (windows lb seen)) = Returns popped /\
    windows lb (seen ++ [w]) = map (fun p => p ++ u " " ++ w) popped ++ [w].
Proof.
  intro Hlb.
  set (f := fun n => join (u " ") (slice_last n seen)).
  assert (Hstep : forall k : nat,
            (k <= List.length seen)%nat ->
            map (fun n => join (u " ") (slice_last n (seen ++ [w]))) (descending (S k))
            = map (fun p => p ++ u " " ++ w) (map f (descending k)) ++ [w]).
  { intros k Hk. rewrite descending_snoc, map_app, !map_map. f_equal.
    - apply map_ext_in. intros n Hn. apply In_descending in Hn. unfold f.
      rewrite slice_last_snoc by lia.
      assert (Hs : slice_last n seen = skipn (List.length seen - Z.to_nat n) seen).
      { unfold slice_last. destruct (Z.eqb_spec n 0); [lia | reflexivity]. }
      rewrite <- Hs. apply join_snoc. apply slice_last_nonempty. lia.
    - simpl. change 1 with (0 + 1). rewrite slice_last_snoc by lia.
      simpl. rewrite Nat.sub_0_r, skipn_all. reflexivity. }
  rewrite length_windows. unfold windows. rewrite length_app. simpl.
  destruct (Nat.le_gt_cases (Z.to_nat lb) (List.length seen)) as [Hge|Hlt].
  - rewrite Nat.min_r by exact Hge.
    destruct (Z.to_nat lb) as [|L] eqn:EL; [lia|].
    destruct (Z.geb_spec (Z.of_nat (S L)) lb); [|lia].
    exists (map f (descending L)). split; [reflexivity|].
    replace (Nat.min (List.length seen + 1) (S L)) with (S L) by lia.
    apply Hstep. lia.
  - rewrite Nat.min_l by lia.
    destruct (Z.geb_spec (Z.of_nat (List.length seen)) lb); [lia|].
    exists (map f (descending (List.length seen))). split; [reflexivity|].
    replace (Nat.min (List.length seen + 1) (Z.to_nat lb))
      with (S (List.length seen)) by lia.
    now apply Hstep.
Qed.

Lemma last_opt_windows (lb : Z) (seen : list unicode) :
  1 <= lb -> last_opt (windows lb seen) = last_opt seen.
Proof.
  intro Hlb. destruct seen as [|x seen'] using rev_ind; [reflexivity|].
  destruct (windows_snoc seen' x Hlb) as [popped [_ ->]].
  now rewrite !last_opt_snoc.
Qed.

Section Records.
Context `{UnicodeData}.
Variable lb : Z.
Hypothesis lb_positive : 1 <= lb.

Lemma record_word_windows (wce counter : Z) (w : unicode) (seen : list unicode)
    (unsaved : list (unicode * unicode)) :
  wce / 10 <> 0 ->
  Forall (fun x => x <> []) seen ->
  record_word lb wce counter w (windows lb seen) unsaved
  = Returns (windows lb (seen ++ [w]), unsaved ++ records lb seen [w]).
Proof.
  intros Hw Hseen. unfold record_word.
  destruct (Z.eqb_spec (wce / 10) 0); [contradiction|].
  rewrite last_opt_windows by exact lb_positive.
  destruct (windows_snoc seen w lb_positive) as [popped [-> ->]].
  simpl records. rewrite app_nil_r.
  destruct (last_opt seen) as [d|] eqn:Ed; simpl.
  - apply last_opt_some in Ed as [a ->].
    apply Forall_app in Hseen as [_ Hd]. inversion Hd as [|? ? Hne _]; subst.
    destruct (last_opt_nonempty Hne) as [c Ec]. unfold ends_with_dot.
    rewrite Ec. simpl. destruct (N.eqb c chr_dot); simpl.
    + now rewrite <- app_assoc.
    + now rewrite app_nil_r.
  - now rewrite app_nil_r.
Qed.

Lemma records_cons (seen rest : list unicode) (w : unicode) :
  records lb seen (w :: rest) = records lb seen [w] ++ records lb (seen ++ [w]) rest.
Proof. simpl. now rewrite app_nil_r, <- !app_assoc. Qed.

Lemma scan_records (wce : Z) (matches : list unicode) :
  wce / 10 <> 0 ->
  Forall (fun x => x <> []) matches ->
  forall counter seen unsaved temp,
    Forall (fun x => x <> []) seen ->
    exists unsaved' temp',
      scan lb wce counter matches (windows lb seen) unsaved temp
      = Returns (unsaved', temp') /\
      temp' ++ unsaved'
      = temp ++ unsaved
        ++ records lb seen (filter (fun w => negb (no_real_word w)) (map lower matches)).
Proof.
  intros Hw. induction matches as [|m rest IH]; intros Hm counter seen unsaved temp Hseen.
  - exists unsaved, temp. simpl. now rewrite app_nil_r.
  - inversion Hm as [|? ? Hne Hrest]; subst. specialize (IH Hrest).
    cbn [scan map filter].
    destruct (no_real_word (lower m)) eqn:Em; cbn [negb].
    + unfold obind.
      destruct (counter mod WRITE_TO_DB_AFTER_NUM_WORDS =? 0).
      * destruct (IH (counter + 1) seen [] (temp ++ unsaved) Hseen)
          as [u' [t' [E0 E]]].
        exists u', t'. split; [exact E0|]. rewrite E. simpl.
        now rewrite <- app_assoc.
      * exact (IH (counter + 1) seen unsaved temp Hseen).
    + rewrite records_cons. rewrite record_word_windows by assumption.
      unfold obind. generalize (records lb seen [lower m]) as R. intro R.
      assert (Hseen' : Forall (fun x => x <> []) (seen ++ [lower m])).
      { apply Forall_app. split; [assumption|]. constructor; [|constructor].
        destruct m; [congruence | discriminate]. }
      destruct (counter mod WRITE_TO_DB_AFTER_NUM_WORDS =? 0).
      * destruct (IH (counter + 1) (seen ++ [lower m]) [] (temp ++ unsaved ++ R) Hseen')
          as [u' [t' [E0 E]]].
        exists u', t'. split; [exact E0|]. rewrite E. simpl.
        now rewrite <- !app_assoc.
      * destruct (IH (counter + 1) (seen ++ [lower m]) (unsaved ++ R) temp Hseen')
          as [u' [t' [E0 E]]].
        exists u', t'. split; [exact E0|]. rewrite E.
        now rewrite <- !app_assoc.
Qed.

Lemma collect_suffixes_records (text : unicode) :
  10 <= count_char chr_space text + 1 ->
  collect_suffixes lb text = Returns (records lb [] (real_words text)).
Proof.
  intro Hbig. unfold collect_suffixes.
  destruct (@scan_records (count_char chr_space text + 1) (finditer text))
    with (counter := 0) (seen := @nil unicode)
         (unsaved := @nil (unicode * unicode)) (temp := @nil (unicode * unicode))
    as [u' [t' [E1 E2]]].
  - intro E. apply Z.div_small_iff in E; lia.
  - apply Forall_forall. intros t Ht.
    now apply (@finditer_run_tokens _ text [] t eq_refl) in Ht.
  - constructor.
  - change (windows lb []) with (@nil unicode) in E1. rewrite E1. simpl.
    rewrite E2. reflexivity.
Qed.
End Records.

Lemma In_count_pair (k : unicode * unicode) (l : list (unicode * unicode)) :
  In k l <-> 0 < count_pair k l.
Proof.
  unfold count_pair. induction l as [|a l IH]; simpl; [split; [intros [] | lia]|].
  destruct (pair_eqb k a) eqn:E; simpl.
  - apply pair_eqb_eq in E. subst a. split; [lia | now left].
  - rewrite <- IH. split; [intros [->|Hin] | now right].
    + rewrite (proj2 (pair_eqb_eq k k) eq_refl) in E. discriminate.
    + exact Hin.
Qed.

(** A pair has a row in a built table exactly when it is among the raw
    records, and the row then carries its multiplicity. *)
Lemma built_row_iff (temp : list (unicode * unicode)) (p s : unicode) :
  In (p, s) temp <->
  exists r, In r (update_probabilities (counted_rows temp)) /\
            prefix r = p /\ suffix r = s /\
            num_occurrences r = count_pair (p, s) temp /\ 1 <= num_occurrences r.
Proof.
  split.
  - intro Hin. apply In_count_pair in Hin.
    destruct (built_row_exists temp (p, s) Hin) as [r [Hr E]].
    injection E as Hp Hs. exists r. subst p s.
    destruct (built_row _ _ Hr) as [Hn [Hpos _]]. repeat split; try assumption. lia.
  - intros [r [Hr [<- [<- [Hn Hpos]]]]]. apply In_count_pair. lia.
Qed.

Section RecordFacts.
Variable lb : Z.

Lemma records_app (a b : list unicode) : forall seen,
  records lb seen (a ++ b) = records lb seen a ++ records lb (seen ++ a) b.
Proof.
  induction a as [|w a IH]; intro seen; simpl.
  - now rewrite app_nil_r.
  - rewrite IH, <- !app_assoc. simpl. reflexivity.
Qed.

Lemma records_window (pre window post : list unicode) (w : unicode) :
  window <> [] ->
  Z.of_nat (List.length window) <= lb ->
  In (join (u " ") window, w) (records lb [] (pre ++ window ++ w :: post)).
Proof.
  intros Hne Hlen. rewrite app_assoc, records_app. apply in_or_app. right.
  simpl. apply in_or_app. left. apply in_map_iff.
  exists (join (u " ") window). split; [reflexivity|].
  apply In_windows. exists (Z.of_nat (List.length window)).
  rewrite slice_last_suffix by exact Hne. rewrite length_app.
  destruct window; [congruence|]. simpl List.length in *. repeat split; lia.
Qed.

Lemma records_root (pre post : list unicode) (d w : unicode) :
  ends_with_dot d = true ->
  In (root_prefix, w) (records lb [] (pre ++ d :: w :: post)).
Proof.
  intro Hd. change (pre ++ d :: w :: post) with (pre ++ [d] ++ w :: post).
  rewrite app_assoc, records_app. apply in_or_app. right.
  simpl. apply in_or_app. right. apply in_or_app. left.
  rewrite last_opt_snoc, Hd. now left.
Qed.

Lemma records_sound (rest : list unicode) : forall seen p s,
  In (p, s) (records lb seen rest) ->
  (p = root_prefix /\
   exists a d b, seen ++ rest = a ++ d :: s :: b /\ ends_with_dot d = true) \/
  (exists a window b,
     seen ++ rest = a ++ window ++ s :: b /\ window <> [] /\
     Z.of_nat (List.length window) <= lb /\ p = join (u " ") window).
Proof.
  induction rest as [|w rest IH]; intros seen p s; simpl; [intros []|].
  rewrite !in_app_iff. intros [Hin|[Hin|Hin]].
  - right. apply in_map_iff in Hin as [p0 [E Hp0]]. injection E as -> ->.
    apply In_windows in Hp0 as [n [Hn [Hlb ->]]].
    destruct (slice_last_spec seen Hn) as [Hsplit Hlen].
    exists (firstn (List.length seen - Z.to_nat n) seen), (slice_last n seen), rest.
    repeat split.
    + rewrite app_assoc, <- Hsplit. reflexivity.
    + apply slice_last_nonempty. exact Hn.
    + lia.
  - left. destruct (last_opt seen) as [d|] eqn:Ed; [|contradiction].
    destruct (ends_with_dot d) eqn:Hd; [|contradiction].
    destruct Hin as [E|[]]. injection E as <- <-.
    apply last_opt_some in Ed as [a ->]. split; [reflexivity|].
    exists a, d, rest. split; [now rewrite <- app_assoc | exact Hd].
  - apply IH in Hin. rewrite <- app_assoc in Hin. exact Hin.
Qed.
End RecordFacts.

Section BuildOutcome.
Context `{UnicodeData}.

Lemma build_records (lb : Z) (text : unicode) (db : database) :
  1 <= lb ->
  10 <= count_char chr_space text + 1 ->
  markov_chain db = Some [] ->
  generate_markov_chain lb text db
  = Returns (mkDb (Some (update_probabilities
                           (counted_rows (records lb [] (real_words text))))) None).
Proof.
  intros Hlb Hbig Hfresh. unfold generate_markov_chain.
  rewrite collect_suffixes_records by assumption. simpl.
  now rewrite Hfresh, insert_counts_fresh.
Qed.

Lemma scan_no_real_words (lb wce : Z) (matches : list unicode) :
  filter (fun w => negb (no_real_word w)) (map lower matches) = [] ->
  forall counter prev temp,
    scan lb wce counter matches prev [] temp = Returns ([], temp).
Proof.
  induction matches as [|m rest IH]; intros Hnone counter prev temp; [reflexivity|].
  cbn [scan map filter] in *.
  destruct (no_real_word (lower m)); cbn [negb] in *; [|discriminate].
  unfold obind. rewrite app_nil_r.
  destruct (counter mod WRITE_TO_DB_AFTER_NUM_WORDS =? 0); now apply IH.
Qed.

Lemma scan_index_error (lb wce : Z) (matches : list unicode) :
  lb <= 0 ->
  wce / 10 <> 0 ->
  filter (fun w => negb (no_real_word w)) (map lower matches) <> [] ->
  forall counter unsaved temp,
    scan lb wce counter matches [] unsaved temp = Raises IndexError.
Proof.
  intros Hlb Hw. induction matches as [|m rest IH]; intros Hsome counter unsaved temp;
    [now contradiction Hsome|].
  cbn [scan map filter] in *.
  destruct (no_real_word (lower m)); cbn [negb] in *.
  - unfold obind.
    destruct (counter mod WRITE_TO_DB_AFTER_NUM_WORDS =? 0); now apply IH.
  - unfold record_word. destruct (Z.eqb_spec (wce / 10) 0); [contradiction|].
    simpl. change (Z.of_nat 0) with 0. destruct (Z.geb_spec 0 lb); [reflexivity | lia].
Qed.
End BuildOutcome.

(** ** What the build stores *)

(** X4. With a lookback of at least 1 and a text of at least nine spaces, a
    build into the freshly created table never raises: it returns, the
    temporary table is gone, and the table holds the grouped window records of
    the text's real words, with their probabilities. *)
Theorem build_succeeds `{UnicodeData} (lb : Z) (text : unicode) (db : database) :
  1 <= lb ->
  10 <= count_char chr_space text + 1 ->
  markov_chain db = Some [] ->
  exists db',
    generate_markov_chain lb text db = Returns db' /\
    markov_chain_temp db' = None /\
    markov_chain db'
    = Some (update_probabilities (counted_rows (records lb [] (real_words text)))).
Proof.
  intros Hlb Hbig Hfresh. eexists. split; [now apply build_records|].
  split; reflexivity.
Qed.

Lemma build_succeeds_witness :
  exists db',
    @generate_markov_chain ascii_table 2 (u pets_corpus) (init_database empty_database)
    = Returns db' /\
    markov_chain_temp db' = None /\
    markov_chain db'
    = Some (update_probabilities
              (counted_rows (records 2 [] (@real_words ascii_table (u pets_corpus))))).
Proof.
  apply (@build_succeeds ascii_table 2 (u pets_corpus) (init_database empty_database)).
  - lia.
  - vm_compute. discriminate.
  - reflexivity.
Defined.

(** X5. Every run of 1 to lookback consecutive real words that is followed
    by a real word has a row: the run joined by single spaces as prefix, the
    following word as suffix, counted at least once. *)
Theorem window_is_recorded `{UnicodeData} (lb : Z) (text : unicode) (db : database)
    (pre window post : list unicode) (w : unicode) :
  1 <= lb ->
  10 <= count_char chr_space text + 1 ->
  markov_chain db = Some [] ->
  real_words text = pre ++ window ++ w :: post ->
  window <> [] ->
  Z.of_nat (List.length window) <= lb ->
  exists db' rows r,
    generate_markov_chain lb text db = Returns db' /\
    markov_chain db' = Some rows /\ In r rows /\
    prefix r = join (u " ") window /\ suffix r = w /\ 1 <= num_occurrences r.
Proof.
  intros Hlb Hbig Hfresh Hreal Hne Hlen.
  pose proof (@records_window lb pre window post w Hne Hlen) as Hin.
  rewrite <- Hreal in Hin. apply built_row_iff in Hin as [r [Hr [Hp [Hs [_ Hn]]]]].
  eexists _, _, r. split; [now apply build_records|].
  split; [reflexivity|]. now repeat split.
Qed.

Lemma window_is_recorded_witness :
  exists db' rows r,
    @generate_markov_chain ascii_table 2 (u pets_corpus) (init_database empty_database)
    = Returns db' /\
    markov_chain db' = Some rows /\ In r rows /\
    prefix r = join (u " ") [u "the"; u "cat"] /\ suffix r = u "ran" /\
    1 <= num_occurrences r.
Proof.
  apply (@window_is_recorded ascii_table 2 (u pets_corpus) (init_database empty_database)
           [u "the"; u "cat"; u "sat."; u "the"; u "dog"; u "ran."]
           [u "the"; u "cat"] [u "to"; u "the"; u "dog."] (u "ran")).
  - lia.
  - vm_compute. discriminate.
  - reflexivity.
  - vm_compute. reflexivity.
  - discriminate.
  - simpl. lia.
Defined.

(** X6. A real word that directly follows a real word ending in ["."] has a
    row under the root prefix ["^"]. *)
Theorem root_is_recorded `{UnicodeData} (lb : Z) (text : unicode) (db : database)
    (pre post : list unicode) (d w : unicode) :
  1 <= lb ->
  10 <= count_char chr_space text + 1 ->
  markov_chain db = Some [] ->
  real_words text = pre ++ d :: w :: post ->
  ends_with_dot d = true ->
  exists db' rows r,
    generate_markov_chain lb text db = Returns db' /\
    markov_chain db' = Some rows /\ In r rows /\
    prefix r = root_prefix /\ suffix r = w /\ 1 <= num_occurrences r.
Proof.
  intros Hlb Hbig Hfresh Hreal Hd.
  pose proof (@records_root lb pre post d w Hd) as Hin.
  rewrite <- Hreal in Hin. apply built_row_iff in Hin as [r [Hr [Hp [Hs [_ Hn]]]]].
  eexists _, _, r. split; [now apply build_records|].
  split; [reflexivity|]. now repeat split.
Qed.

Lemma root_is_recorded_witness :
  exists db' rows r,
    @generate_markov_chain ascii_table 2 (u pets_corpus) (init_database empty_database)
    = Returns db' /\
    markov_chain db' = Some rows /\ In r rows /\
    prefix r = root_prefix /\ suffix r = u "the" /\ 1 <= num_occurrences r.
Proof.
  apply (@root_is_recorded ascii_table 2 (u pets_corpus) (init_database empty_database)
           [u "the"; u "cat"]
           [u "dog"; u "ran."; u "the"; u "cat"; u "ran"; u "to"; u "the"; u "dog."]
           (u "sat.") (u "the")).
  - lia.
  - vm_compute. discriminate.
  - reflexivity.
  - vm_compute. reflexivity.
  - reflexivity.
Defined.

(** X7. Nothing else is stored: every row of a built table is either a root
    row whose suffix directly follows a real word ending in ["."], or has as
    prefix a run of 1 to lookback consecutive real words, joined by single
    spaces, that its suffix directly follows. *)
Theorem rows_come_from_windows `{UnicodeData} (lb : Z) (text : unicode)
    (db db' : database) (rows : list row) (r : row) :
  1 <= lb ->
  10 <= count_char chr_space text + 1 ->
  markov_chain db = Some [] ->
  generate_markov_chain lb text db = Returns db' ->
  markov_chain db' = Some rows ->
  In r rows ->
  (prefix r = root_prefix /\
   exists a d b, real_words text = a ++ d :: suffix r :: b /\ ends_with_dot d = true) \/
  (exists a window b,
     real_words text = a ++ window ++ suffix r :: b /\ window <> [] /\
     Z.of_nat (List.length window) <= lb /\ prefix r = join (u " ") window).
Proof.
  intros Hlb Hbig Hfresh Hbuild Hrows Hr.
  rewrite build_records in Hbuild by assumption. injection Hbuild as <-.
  simpl in Hrows. injection Hrows as <-.
  assert (Hin : In (prefix r, suffix r) (records lb [] (real_words text))).
  { apply built_row_iff. exists r.
    destruct (built_row _ _ Hr) as [Hn [Hpos _]]. repeat split; try assumption. lia. }
  exact (@records_sound lb _ _ _ _ Hin).
Qed.

Lemma rows_come_from_windows_witness :
  (prefix (nth 0 pets_rows (mkRow [] [] 0 None)) = root_prefix /\
   exists a d b,
     @real_words ascii_table (u pets_corpus)
     = a ++ d :: suffix (nth 0 pets_rows (mkRow [] [] 0 None)) :: b /\
     ends_with_dot d = true) \/
  (exists a window b,
     @real_words ascii_table (u pets_corpus)
     = a ++ window ++ suffix (nth 0 pets_rows (mkRow [] [] 0 None)) :: b /\
     window <> [] /\ Z.of_nat (List.length window) <= 2 /\
     prefix (nth 0 pets_rows (mkRow [] [] 0 None)) = join (u " ") window).
Proof.
  apply (@rows_come_from_windows ascii_table 2 (u pets_corpus)
           (init_database empty_database) pets_db pets_rows).
  - lia.
  - vm_compute. discriminate.
  - reflexivity.
  - vm_compute. reflexivity.
  - reflexivity.
  - vm_compute. left. reflexivity.
Defined.

(** X8. With a lookback of 0 or less the build cannot get past the first
    real word of a text of at least nine spaces: [prev_prefixes.pop(0)] is
    called on the empty list and raises [IndexError]. *)
Theorem nonpositive_lookback_raises `{UnicodeData} (lb : Z) (text : unicode)
    (db : database) :
  lb <= 0 ->
  10 <= count_char chr_space text + 1 ->
  real_words text <> [] ->
  generate_markov_chain lb text db = Raises IndexError.
Proof.
  intros Hlb Hbig Hreal. unfold generate_markov_chain, collect_suffixes.
  rewrite scan_index_error; [reflexivity | assumption | | exact Hreal].
  intro E. apply Z.div_small_iff in E; lia.
Qed.

Lemma nonpositive_lookback_raises_witness :
  @generate_markov_chain ascii_table 0 (u pets_corpus) (init_database empty_database)
  = Raises IndexError.
Proof.
  apply (@nonpositive_lookback_raises ascii_table).
  - lia.
  - vm_compute. discriminate.
  - vm_compute. discriminate.
Defined.

(** ** Degenerate texts and missing tables *)

Section EmptyTable.
Context `{UnicodeData}.
Variable self : MarkovChain.

Lemma seed_on_empty_table (start_word : option unicode) (g : tape) :
  markov_chain (conn self) = Some [] ->
  seed self start_word g = Raises (AttributeError "capitalize").
Proof.
  intro Ht.
  assert (Hnone : forall p g0, exists g1,
            choose_next_word self p g0 = Returns (None, g1)).
  { intros p g0. now apply choose_next_word_none with (table := @nil row). }
  destruct start_word as [[|c s]|].
  - unfold seed, gbind, gret. simpl.
    destruct (Hnone root_prefix g) as [g1 ->]. reflexivity.
  - destruct (Hnone (lower (c :: s)) g) as [g1 E1].
    destruct (Hnone (c :: s) g1) as [g2 E2].
    exact (@seed_unknown_start_word _ self c s g g1 g2 E1 E2).
  - rewrite seed_without_start_word.
    destruct (Hnone root_prefix g) as [g1 ->]. reflexivity.
Qed.

Lemma choose_next_word_no_table (from_prefix : unicode) (g : tape) :
  markov_chain (conn self) = None ->
  choose_next_word self from_prefix g = Raises OperationalError.
Proof.
  intro Ht. unfold choose_next_word, gbind, random_random. simpl. now rewrite Ht.
Qed.

Lemma seed_no_table (start_word : option unicode) (g : tape) :
  markov_chain (conn self) = None ->
  seed self start_word g = Raises OperationalError.
Proof.
  intro Ht. unfold seed, gbind, gret.
  destruct start_word as [[|c s]|]; simpl;
    now rewrite ?choose_next_word_no_table by exact Ht.
Qed.
End EmptyTable.

(** X9. A text without a real word (an empty text, or one of numbers and
    punctuation only) builds, for every lookback and whatever its length, into
    an empty table; every later [generate_sentence] on that table raises
    [AttributeError] from [first_word.capitalize()], with or without a start
    word. *)
Theorem text_without_real_words `{UnicodeData} (lb : Z) (text : unicode) (db : database) :
  real_words text = [] ->
  markov_chain db = Some [] ->
  generate_markov_chain lb text db = Returns (mkDb (Some []) None) /\
  forall target fuel start_word min_words max_length prevent_recursion g,
    generate_sentence (mkChain lb target (mkDb (Some []) None)) (S fuel)
      start_word min_words max_length prevent_recursion g
    = Raises (AttributeError "capitalize").
Proof.
  intros Hreal Hfresh. split.
  - unfold generate_markov_chain, collect_suffixes.
    rewrite scan_no_real_words by exact Hreal. simpl.
    now rewrite Hfresh.
  - intros. cbn [generate_sentence]. unfold gbind at 1.
    now rewrite seed_on_empty_table.
Qed.

Lemma text_without_real_words_witness :
  @generate_markov_chain ascii_table 3 (u "1, 2, 3.") (init_database empty_database)
  = Returns (mkDb (Some []) None) /\
  forall target fuel start_word min_words max_length prevent_recursion g,
    @generate_sentence ascii_table (mkChain 3 target (mkDb (Some []) None)) (S fuel)
      start_word min_words max_length prevent_recursion g
    = Raises (AttributeError "capitalize").
Proof.
  apply (@text_without_real_words ascii_table 3 (u "1, 2, 3.")
           (init_database empty_database)).
  - vm_compute. reflexivity.
  - reflexivity.
Defined.

(** X10. Constructed without an input file and without a cache, the object
    has no table: the world is untouched, and [choose_next_word] and
    [generate_sentence] raise [OperationalError]. *)
Theorem no_input_file_no_table `{UnicodeData} (lb : Z) (w : world) :
  exists self,
    init None lb true w = Returns (self, w) /\
    markov_chain (conn self) = None /\
    (forall p g, choose_next_word self p g = Raises OperationalError) /\
    (forall fuel start_word min_words max_length prevent_recursion g,
       generate_sentence self (S fuel) start_word min_words max_length
         prevent_recursion g
       = Raises OperationalError).
Proof.
  exists (mkChain lb None empty_database).
  split; [reflexivity|]. split; [reflexivity|]. split.
  - intros. now apply choose_next_word_no_table.
  - intros. cbn [generate_sentence]. unfold gbind at 1.
    now rewrite seed_no_table.
Qed.

(** ** Invariants of a built table *)

Lemma Zsum_ge_member (l : list Z) (z : Z) :
  In z l -> (forall z', In z' l -> 0 < z') -> z <= Zsum l.
Proof.
  induction l as [|a l IH]; [intros []|]. intros [->|Hin] Hpos; simpl.
  - assert (0 <= Zsum l) by (apply Zsum_nonneg; intros; apply Hpos; now right). lia.
  - assert (0 < a) by (apply Hpos; now left).
    assert (z <= Zsum l) by (apply IH; [assumption | intros; apply Hpos; now right]).
    lia.
Qed.

Lemma count_within_total (rows : list row) (r : row) :
  (forall r', In r' rows -> 0 < num_occurrences r') ->
  In r rows -> num_occurrences r <= total_for (prefix r) rows.
Proof.
  intros Hpos Hr. unfold total_for. apply Zsum_ge_member.
  - apply in_map. apply filter_In. split; [assumption | apply unicode_eqb_refl].
  - intros z Hz. apply in_map_iff in Hz as [r' [<- Hr']].
    apply filter_In in Hr' as [Hr' _]. now apply Hpos.
Qed.

Lemma row_keys_update (rows : list row) :
  map row_key (update_probabilities rows) = map row_key rows.
Proof. rewrite update_probabilities_spec, map_map. reflexivity. Qed.

Lemma row_keys_counted (temp : list (unicode * unicode)) :
  map row_key (counted_rows temp) = map fst (select_counts temp).
Proof.
  unfold counted_rows. rewrite map_map. apply map_ext. now intros [[p s] n].
Qed.

Lemma Zsum_bump {K} (eqb : K -> K -> bool) (k : K) (n : Z) (acc : list (K * Z)) :
  Zsum (map snd (bump eqb k n acc)) = Zsum (map snd acc) + n.
Proof.
  induction acc as [|[k' m] acc IH]; simpl; [lia|].
  destruct (eqb k k'); simpl; [lia | rewrite IH; lia].
Qed.

Lemma Zsum_group_sum {K} (eqb : K -> K -> bool) (l : list (K * Z)) :
  Zsum (map snd (group_sum eqb l)) = Zsum (map snd l).
Proof.
  unfold group_sum.
  assert (G : forall acc,
            Zsum (map snd (fold_left
                             (fun a kn => bump eqb (fst kn) (snd kn) a) l acc))
            = Zsum (map snd acc) + Zsum (map snd l)).
  { induction l as [|x l IH]; intro acc; simpl; [lia|].
    rewrite IH, Zsum_bump. lia. }
  rewrite G. reflexivity.
Qed.

Lemma Zsum_counted_rows (temp : list (unicode * unicode)) :
  Zsum (map num_occurrences (update_probabilities (counted_rows temp)))
  = Z.of_nat (List.length temp).
Proof.
  rewrite update_probabilities_spec, map_map. simpl.
  unfold counted_rows. rewrite map_map. simpl.
  change (map (fun x : unicode * unicode * Z => snd x) (select_counts temp))
    with (map snd (select_counts temp)).
  unfold select_counts. rewrite Zsum_group_sum, map_map. simpl.
  induction temp as [|a temp IH]; simpl; [reflexivity|]. rewrite IH. lia.
Qed.

(** X11. In a built table no (prefix, suffix) pair has two rows, every count
    is at least 1 and at most its prefix's total, and every probability is
    set, positive and at most 1. *)
Theorem built_table_invariants `{UnicodeData} (lb : Z) (text : unicode)
    (db db' : database) (rows : list row) :
  markov_chain db = Some [] ->
  generate_markov_chain lb text db = Returns db' ->
  markov_chain db' = Some rows ->
  NoDup (map row_key rows) /\
  forall r, In r rows ->
    1 <= num_occurrences r <= total_for (prefix r) rows /\
    exists q, probability r = Some q /\ (0 < q)%Q /\ (q <= 1)%Q.
Proof.
  intros Hfresh Hbuild Hrows.
  destruct (build_result _ _ _ Hfresh Hbuild) as [temp [_ Htable]].
  rewrite Htable in Hrows. injection Hrows as <-. split.
  - rewrite row_keys_update, row_keys_counted. apply group_sum_NoDup.
    exact pair_eqb_eq.
  - intros r Hr. destruct (built_row _ _ Hr) as [_ [Hn [Htot Hprob]]].
    assert (Hle : num_occurrences r
                  <= total_for (prefix r) (update_probabilities (counted_rows temp))).
    { apply count_within_total; [|exact Hr].
      intros r' Hr'. now destruct (built_row _ _ Hr') as [_ [? _]]. }
    split; [lia|]. eexists. split; [exact Hprob|].
    assert (Hp : (0 < inject_Z (total_for (prefix r)
                                  (update_probabilities (counted_rows temp))))%Q).
    { unfold Qlt. simpl. lia. }
    split.
    + apply Qlt_shift_div_l; [exact Hp|]. rewrite Qmult_0_l.
      unfold Qlt. simpl. lia.
    + apply Qle_shift_div_r; [exact Hp|]. rewrite Qmult_1_l.
      now rewrite <- Zle_Qle.
Qed.

Lemma built_table_invariants_witness :
  NoDup (map row_key pets_rows) /\
  forall r, In r pets_rows ->
    1 <= num_occurrences r <= total_for (prefix r) pets_rows /\
    exists q, probability r = Some q /\ (0 < q)%Q /\ (q <= 1)%Q.
Proof.
  apply (@built_table_invariants ascii_table 2 (u pets_corpus)
           (init_database empty_database) pets_db pets_rows).
  - reflexivity.
  - vm_compute. reflexivity.
  - reflexivity.
Defined.

(** X12. Grouping loses nothing: the counts of a built table add up to the
    number of raw records, one per tracked window and per root occurrence. *)
Theorem counts_add_up `{UnicodeData} (lb : Z) (text : unicode)
    (db db' : database) (rows : list row) :
  1 <= lb ->
  10 <= count_char chr_space text + 1 ->
  markov_chain db = Some [] ->
  generate_markov_chain lb text db = Returns db' ->
  markov_chain db' = Some rows ->
  Zsum (map num_occurrences rows)
  = Z.of_nat (List.length (records lb [] (real_words text))).
Proof.
  intros Hlb Hbig Hfresh Hbuild Hrows.
  rewrite build_records in Hbuild by assumption. injection Hbuild as <-.
  simpl in Hrows. injection Hrows as <-. apply Zsum_counted_rows.
Qed.

Lemma counts_add_up_witness :
  Zsum (map num_occurrences pets_rows)
  = Z.of_nat (List.length (records 2 [] (@real_words ascii_table (u pets_corpus)))).
Proof.
  apply (@counts_add_up ascii_table 2 (u pets_corpus)
           (init_database empty_database) pets_db pets_rows).
  - lia.
  - vm_compute. discriminate.
  - reflexivity.
  - vm_compute. reflexivity.
  - reflexivity.
Defined.

(** X13. The build cannot be repeated on its own result: a second
    [generate_markov_chain] of the same text on a connection whose table
    already holds the rows of the first violates the UNIQUE constraint and
    raises [IntegrityError]. *)
Theorem second_build_raises `{UnicodeData} (lb : Z) (text : unicode)
    (db db' : database) (r : row) (rows : list row) :
  markov_chain db = Some [] ->
  generate_markov_chain lb text db = Returns db' ->
  markov_chain db' = Some (r :: rows) ->
  generate_markov_chain lb text db' = Raises IntegrityError.
Proof.
  intros Hfresh Hbuild Hrows.
  destruct (build_result _ _ _ Hfresh Hbuild) as [temp [Hc Htable]].
  rewrite Hrows in Htable. injection Htable as Htable.
  assert (Hr : In r (update_probabilities (counted_rows temp))).
  { rewrite <- Htable. now left. }
  destruct (built_row _ _ Hr) as [Hn [Hpos _]].
  unfold generate_markov_chain. rewrite Hc, Hrows. simpl. unfold insert_counts.
  replace (existsb _ (select_counts temp)) with true; [reflexivity|].
  symmetry. apply existsb_exists.
  exists ((prefix r, suffix r), num_occurrences r). split.
  - apply select_counts_spec. split; [lia | exact Hn].
  - simpl. apply orb_true_iff. left. now apply pair_eqb_eq.
Qed.

Lemma second_build_raises_witness :
  @generate_markov_chain ascii_table 2 (u pets_corpus) pets_db = Raises IntegrityError.
Proof.
  apply (@second_build_raises ascii_table 2 (u pets_corpus)
           (init_database empty_database) pets_db
           (nth 0 pets_rows (mkRow [] [] 0 None)) (tl pets_rows)).
  - reflexivity.
  - vm_compute. reflexivity.
  - reflexivity.
Defined.

(** ** The sampler on a built table *)

Lemma accumulate_total (random_choice : Q) (rows : list (unicode * option Q)) :
  (forall s p, In (s, p) rows -> p <> None) ->
  forall i, exists w, accumulate random_choice i rows = Returns w.
Proof.
  induction rows as [|[s [p|]] rows IH]; intros Hall i; simpl.
  - now exists None.
  - destruct (Qle_bool random_choice (i + p)); [now exists (Some s)|].
    apply IH. intros s' p' Hin. apply (Hall s' p'). now right.
  - exfalso. apply (Hall s None); [now left | reflexivity].
Qed.

(** X14. On a built table [choose_next_word] never raises: for every prefix
    and every tape it returns, with [None] or with a suffix. *)
Theorem choose_next_word_never_raises `{UnicodeData} (lb : Z) (text : unicode)
    (db : database) (self : MarkovChain) (from_prefix : unicode) (g : tape) :
  markov_chain db = Some [] ->
  generate_markov_chain lb text db = Returns (conn self) ->
  exists w g', choose_next_word self from_prefix g = Returns (w, g').
Proof.
  intros Hfresh Hbuild.
  destruct (build_result _ _ _ Hfresh Hbuild) as [temp [_ Htable]].
  destruct (choose_next_word_unfold self from_prefix g Htable)
    as [x [rows [g' [_ [P E]]]]].
  destruct (@accumulate_total x rows) with (i := 0%Q) as [w Hw].
  - intros s p Hin Hp. subst p.
    apply (Permutation_in _ (Permutation_sym P)) in Hin.
    apply select_suffixes_In in Hin as [r [Hr [_ [_ Hnull]]]].
    destruct (built_row _ _ Hr) as [_ [_ [_ Hprob]]]. congruence.
  - exists w, g'. now rewrite E, Hw.
Qed.

Lemma choose_next_word_never_raises_witness :
  exists w g', choose_next_word pets_chain (u "the") (fun _ => 0%N) = Returns (w, g').
Proof.
  apply (@choose_next_word_never_raises ascii_table 2 (u pets_corpus)
           (init_database empty_database) pets_chain).
  - reflexivity.
  - vm_compute. reflexivity.
Defined.

(** ** The shape of a grown queue *)

Lemma app_cons_same_length {A} (a a0 b b0 : list A) (x y : A) :
  a ++ x :: b = a0 ++ y :: b0 -> List.length a = List.length a0 -> x = y.
Proof.
  revert a0. induction a as [|h a IH]; intros [|h0 a0] E L; simpl in *;
    try discriminate.
  - now injection E.
  - injection E as _ E. apply (IH a0 E). lia.
Qed.

Section QueueShape.
Variable self : MarkovChain.
Variable table : list row.
Hypothesis has_table : markov_chain (conn self) = Some table.

Lemma try_windows_source (lengths : list Z) (q : list unicode) :
  forall suggestion g w g',
    try_windows self lengths q suggestion g = Returns (Some w, g') ->
    suggestion = Some w \/ exists r, In r table /\ suffix r = w.
Proof.
  induction lengths as [|n rest IH]; intros suggestion g w g'; simpl.
  - intros [= -> _]. now left.
  - destruct (Z.of_nat (List.length q) >=? n); [|apply IH].
    unfold gbind.
    destruct (choose_next_word self _ g) as [[[[|c s]|] g1]| |] eqn:E;
      try discriminate.
    + intro T. apply IH in T as [T|T]; [|now right].
      injection T as <-. right.
      destruct (choose_next_word_some _ _ _ has_table E) as [r [_ [Hr [_ [Hs _]]]]].
      now exists r.
    + simpl. intros [= <- _]. right.
      destruct (choose_next_word_some _ _ _ has_table E) as [r [_ [Hr [_ [Hs _]]]]].
      now exists r.
    + intro T. apply IH in T as [T|T]; [discriminate | now right].
Qed.

Lemma grow_shape (fuel : nat) : forall q g q' g',
  grow self fuel q g = Returns (q', g') ->
  exists added,
    q' = q ++ added /\ q <> [] /\
    (forall w, In w added -> w <> [] /\ exists r, In r table /\ suffix r = w) /\
    (forall a x b, q' = a ++ x :: b -> b <> [] ->
                   (List.length q <= S (List.length a))%nat ->
                   find_is_minus1 chr_dot x = true).
Proof.
  induction fuel as [|fuel IH]; intros q g q' g'; [discriminate|].
  assert (Hstop : forall (q0 : list unicode),
            q0 <> [] ->
            exists added : list unicode,
              q0 = q0 ++ added /\ q0 <> [] /\
              (forall w, In w added ->
                         w <> [] /\ exists r, In r table /\ suffix r = w) /\
              (forall a x b, q0 = a ++ x :: b -> b <> [] ->
                             (List.length q0 <= S (List.length a))%nat ->
                             find_is_minus1 chr_dot x = true)).
  { intros q0 Hq0. exists []. rewrite app_nil_r.
    split; [reflexivity|]. split; [assumption|]. split.
    - intros w [].
    - intros a x b -> Hb Hlen. rewrite length_app in Hlen. simpl in Hlen.
      destruct b; [congruence | simpl in Hlen; lia]. }
  simpl. destruct (last_opt q) as [w|] eqn:El; [|discriminate].
  assert (Hq : q <> []) by (intros ->; discriminate).
  destruct (find_is_minus1 chr_dot w) eqn:Ed.
  - unfold gbind.
    destruct (random_randint 1 (lookback self) g) as [[k g1]| |]; try discriminate.
    destruct (try_windows self _ q None g1) as [[[[|c s]|] g2]| |] eqn:Et;
      try discriminate.
    + intros [= <- _]. now apply Hstop.
    + intro G. apply IH in G as [added [-> [_ [Hrows Hdots]]]].
      exists ((c :: s) :: added). rewrite <- app_assoc. simpl.
      split; [reflexivity|]. split; [assumption|]. split.
      * intros w0 [<-|Hin]; [|now apply Hrows]. split; [discriminate|].
        apply try_windows_source in Et as [Et|Et]; [discriminate | exact Et].
      * intros a x b E Hb Hlen.
        destruct (Nat.eq_dec (S (List.length a)) (List.length q)) as [Heq|Hne].
        -- apply last_opt_some in El as [a0 ->].
           rewrite <- !app_assoc in E. simpl in E.
           rewrite length_app in Heq. simpl in Heq.
           assert (x = w).
           { symmetry. apply (@app_cons_same_length _ a0 a _ b w x E). lia. }
           now subst x.
        -- apply (Hdots a x b); [now rewrite <- app_assoc | exact Hb |].
           rewrite length_app. simpl. lia.
    + intros [= <- _]. now apply Hstop.
  - intros [= <- _]. now apply Hstop.
Qed.
End QueueShape.

(** X15. The growth loop only appends: the queue it returns is the queue it
    was given followed by tokens that are non-empty suffixes of rows of the
    table, and a token that got a successor appended has no ["."]. *)
Theorem grow_only_appends (self : MarkovChain) (table : list row) (fuel : nat)
    (q q' : list unicode) (g g' : tape) :
  markov_chain (conn self) = Some table ->
  grow self fuel q g = Returns (q', g') ->
  exists added,
    q' = q ++ added /\ q <> [] /\
    (forall w, In w added -> w <> [] /\ exists r, In r table /\ suffix r = w) /\
    (forall a x b, q' = a ++ x :: b -> b <> [] ->
                   (List.length q <= S (List.length a))%nat ->
                   find_is_minus1 chr_dot x = true).
Proof. intros Ht G. exact (@grow_shape self table Ht fuel q g q' g' G). Qed.

Lemma grow_only_appends_witness :
  exists added,
    [u "the"; u "cat"; u "sat."] = [u "the"] ++ added /\ [u "the"] <> [] /\
    (forall w, In w added -> w <> [] /\ exists r, In r pets_rows /\ suffix r = w) /\
    (forall a x b, [u "the"; u "cat"; u "sat."] = a ++ x :: b -> b <> [] ->
                   (List.length [u "the"] <= S (List.length a))%nat ->
                   find_is_minus1 chr_dot x = true).
Proof.
  eapply (@grow_only_appends pets_chain pets_rows 10 [u "the"]
            [u "the"; u "cat"; u "sat."] (fun _ => 0%N)).
  - reflexivity.
  - vm_compute. reflexivity.
Defined.

(** ** The shape of a returned sentence *)

Section SentenceShape.
Context `{UnicodeData}.
Variable self : MarkovChain.
Variable table : list row.
Hypothesis has_table : markov_chain (conn self) = Some table.

Lemma seed_shape (start_word : option unicode) (g g1 : tape) (q0 : list unicode) :
  seed self start_word g = Returns (q0, g1) ->
  (exists w r, q0 = [w] /\ In r table /\ suffix r = w) \/
  (exists sw w r, start_word = Some sw /\ q0 = [sw; w] /\ w <> [] /\
                  In r table /\ suffix r = w).
Proof.
  assert (Hroot : forall p g0,
            gbind (choose_next_word self p)
              (fun first_word' =>
                 match first_word' with
                 | None => graise (AttributeError "capitalize")
                 | Some w => gret [w]
                 end) g0 = Returns (q0, g1) ->
            exists w r, q0 = [w] /\ In r table /\ suffix r = w).
  { intros p g0. unfold gbind.
    destruct (choose_next_word self p g0) as [[[w|] g2]| |] eqn:E; try discriminate.
    intros [= <- _].
    destruct (choose_next_word_some _ _ _ has_table E) as [r [_ [Hr [_ [Hs _]]]]].
    now exists w, r. }
  unfold seed. destruct start_word as [[|c s]|].
  - intro S0. left. exact (Hroot _ _ S0).
  - unfold gbind at 1.
    destruct (choose_next_word self (lower (c :: s)) g) as [[[[|c' s']|] g2]| |] eqn:E;
      try discriminate.
    + intro S0. left. exact (Hroot _ _ S0).
    + intros [= <- _]. right.
      destruct (choose_next_word_some _ _ _ has_table E) as [r [_ [Hr [_ [Hs _]]]]].
      exists (c :: s), (c' :: s'), r. repeat split; try assumption. discriminate.
    + intro S0. left. exact (Hroot _ _ S0).
  - intro S0. left. exact (Hroot _ _ S0).
Qed.

Lemma sentence_shape (fuel : nat) :
  forall start_word min_words max_length prevent_recursion g out g',
    generate_sentence self fuel start_word min_words max_length prevent_recursion g
    = Returns (out, g') ->
    exists q,
      out = join (u " ") q /\
      Z.min min_words 5 <= Z.of_nat (List.length q) /\
      (forall a x b, q = a ++ x :: b ->
                     (a = [] /\ start_word = Some x) \/
                     exists r, In r table /\ suffix r = x) /\
      (forall a x b, q = a ++ x :: b -> a <> [] -> b <> [] ->
                     find_is_minus1 chr_dot x = true).
Proof.
  induction fuel as [|fuel IH];
    intros start_word min_words max_length prevent_recursion g out g';
    [discriminate|].
  cbn [generate_sentence]. unfold gbind at 1.
  destruct (seed self start_word g) as [[q0 g1]| |] eqn:Es; try discriminate.
  unfold gbind at 1.
  destruct (grow self fuel q0 g1) as [[q g2]| |] eqn:Eg; try discriminate.
  destruct (wants_retry q (join (u " ") q) min_words max_length prevent_recursion)
    eqn:Ew.
  - unfold gbind. destruct (random_random g2) as [[x g3]| |]; try discriminate.
    intro G. apply IH in G as [q1 [Hout [Hlen [Hsrc Hdots]]]].
    exists q1. split; [exact Hout|]. split; [lia|]. split; [|exact Hdots].
    intros a y b E. destruct (Hsrc a y b E) as [[_ Habs]|Hr];
      [discriminate | now right].
  - intros [= <- _]. exists q. split; [reflexivity|].
    unfold wants_retry in Ew. apply orb_false_iff in Ew as [Ew _].
    apply Z.ltb_ge in Ew. split; [lia|].
    destruct (@grow_shape self table has_table fuel q0 g1 q g2 Eg)
      as [added [-> [_ [Hrows Hdots]]]].
    apply seed_shape in Es. split.
    + intros a y b E.
      destruct Es as [[w [r [-> [Hr Hs]]]]|[sw [w [r [-> [-> [_ [Hr Hs]]]]]]]].
      * right. destruct a as [|h a]; simpl in E.
        -- injection E as <- _. now exists r.
        -- injection E as _ E.
           destruct (Hrows y) as [_ Hy]; [|exact Hy].
           rewrite E. apply in_or_app. right. now left.
      * destruct a as [|h a]; simpl in E.
        -- injection E as <- _. left. now split.
        -- right. injection E as _ E. destruct a as [|h' a]; simpl in E.
           ++ injection E as <- _. now exists r.
           ++ injection E as _ E.
              destruct (Hrows y) as [_ Hy]; [|exact Hy].
              rewrite E. apply in_or_app. right. now left.
    + intros a y b E Ha Hb. apply (Hdots a y b E Hb).
      destruct Es as [[w [r [-> _]]]|[sw [w [r [_ [-> _]]]]]]; simpl.
      * lia.
      * destruct a; [congruence | simpl; lia].
Qed.
End SentenceShape.

(** X16. A sentence that [generate_sentence] returns is a queue joined by
    single spaces. The queue has at least min(min_words, 5) words; its first
    word is the given start word or a suffix of the table and every other
    word is a suffix of the table; and no word strictly between the first and
    the last contains ["."]. *)
Theorem returned_sentence_shape `{UnicodeData} (self : MarkovChain) (table : list row)
    (fuel : nat) (start_word : option unicode) (min_words max_length : Z)
    (prevent_recursion : bool) (g g' : tape) (out : unicode) :
  markov_chain (conn self) = Some table ->
  generate_sentence self fuel start_word min_words max_length prevent_recursion g
  = Returns (out, g') ->
  exists q,
    out = join (u " ") q /\
    Z.min min_words 5 <= Z.of_nat (List.length q) /\
    (forall a x b, q = a ++ x :: b ->
                   (a = [] /\ start_word = Some x) \/
                   exists r, In r table /\ suffix r = x) /\
    (forall a x b, q = a ++ x :: b -> a <> [] -> b <> [] ->
                   find_is_minus1 chr_dot x = true).
Proof.
  intros Ht G.
  exact (@sentence_shape _ self table Ht fuel start_word min_words max_length
           prevent_recursion g out g' G).
Qed.

Lemma returned_sentence_shape_witness :
  exists q,
    u "one two three four five six seven eight nine." = join (u " ") q /\
    Z.min 5 5 <= Z.of_nat (List.length q) /\
    (forall a x b, q = a ++ x :: b ->
                   (a = [] /\ @None unicode = Some x) \/
                   exists r, In r (table_of (Returns count_db)) /\ suffix r = x) /\
    (forall a x b, q = a ++ x :: b -> a <> [] -> b <> [] ->
                   find_is_minus1 chr_dot x = true).
Proof.
  eapply (@returned_sentence_shape ascii_table count_chain (table_of (Returns count_db))
            20 None 5 140 false (fun _ => 0%N)).
  - reflexivity.
  - vm_compute. reflexivity.
Defined.

(** ** Cache identity *)

Lemma u_injective (s t : string) : u s = u t -> s = t.
Proof.
  unfold u. intro E.
  assert (L : list_ascii_of_string s = list_ascii_of_string t).
  { revert E. generalize (list_ascii_of_string s) (list_ascii_of_string t).
    intros l. induction l as [|a l IH]; intros [|b l']; simpl; intro E;
      try discriminate; [reflexivity|].
    injection E as E1 E2. f_equal; [|now apply IH].
    rewrite <- (ascii_N_embedding a), <- (ascii_N_embedding b). now rewrite E1. }
  rewrite <- (string_of_list_ascii_of_string s), <- (string_of_list_ascii_of_string t).
  now rewrite L.
Qed.

Lemma string_of_uint_no_tilde (d : Decimal.uint) :
  ~ In chr_tilde (u (NilEmpty.string_of_uint d)).
Proof.
  induction d; simpl; [intros [] | ..];
    (intros [E|Hin]; [discriminate | now apply IHd]).
Qed.

Lemma format_d_no_tilde (lb : Z) : ~ In chr_tilde (format_d lb).
Proof.
  unfold format_d.
  assert (U : forall d, ~ In chr_tilde (u (NilZero.string_of_uint d))).
  { intros d. destruct d; try apply string_of_uint_no_tilde.
    simpl. intros [E|[]]. discriminate. }
  destruct (Z.to_int lb) as [d|d]; simpl.
  - apply U.
  - intros [E|Hin]; [discriminate | now apply (U d)].
Qed.

Lemma format_d_injective (a b : Z) : format_d a = format_d b -> a = b.
Proof.
  unfold format_d. intro E. apply u_injective in E.
  assert (I : forall z, NilZero.int_of_string (NilZero.string_of_int (Z.to_int z))
                        = Some (Z.to_int z)).
  { intro z. apply NilZero.isi; destruct z; simpl; try discriminate;
      intros [= E0]; now apply (Unsigned.to_uint_nonnil p). }
  pose proof (I a) as Ia. rewrite E, I in Ia. injection Ia as Ia.
  rewrite <- (DecimalZ.of_to a), <- (DecimalZ.of_to b). now rewrite Ia.
Qed.

Lemma split_at_first {A} (c : A) (a1 a2 b1 b2 : list A) :
  ~ In c a1 -> ~ In c a2 -> a1 ++ c :: b1 = a2 ++ c :: b2 -> a1 = a2 /\ b1 = b2.
Proof.
  revert a2. induction a1 as [|x a1 IH]; intros [|y a2] H1 H2 E; simpl in *.
  - injection E as ->. now split.
  - injection E as -> _. exfalso. apply H2. now left.
  - injection E as -> _. exfalso. apply H1. now left.
  - injection E as -> E.
    destruct (IH a2) as [-> ->]; try assumption; try tauto.
Qed.

Lemma split_at_last {A} (c : A) (a1 a2 b1 b2 : list A) :
  ~ In c b1 -> ~ In c b2 -> a1 ++ c :: b1 = a2 ++ c :: b2 -> a1 = a2 /\ b1 = b2.
Proof.
  intros H1 H2 E. apply (f_equal (@rev A)) in E.
  rewrite !rev_app_distr in E. simpl in E. rewrite <- !app_assoc in E. simpl in E.
  apply split_at_first in E as [Eb Ea]; try (rewrite <- in_rev; assumption).
  apply (f_equal (@rev A)) in Ea, Eb. rewrite !rev_involutive in Ea, Eb.
  now split.
Qed.

Lemma cache_name_injective_lemma (f1 f2 : unicode) (lb1 lb2 : Z) :
  cache_name (Some f1) lb1 = cache_name (Some f2) lb2 -> f1 = f2 /\ lb1 = lb2.
Proof.
  assert (N : forall f lb,
            cache_name (Some f) lb = (f ++ u ".markovdb") ++ chr_tilde :: format_d lb).
  { intros f lb. unfold cache_name. rewrite <- app_assoc. reflexivity. }
  rewrite !N. intro E.
  apply split_at_last in E as [Ef Ed]; try apply format_d_no_tilde.
  apply app_inv_tail in Ef. apply format_d_injective in Ed. now split.
Qed.

(** X17. Distinct identities get distinct cache files: the name built from
    an input path and a lookback determines both. *)
Theorem cache_name_injective (f1 f2 : unicode) (lb1 lb2 : Z) :
  cache_name (Some f1) lb1 = cache_name (Some f2) lb2 -> f1 = f2 /\ lb1 = lb2.
Proof. apply cache_name_injective_lemma. Qed.

Lemma cache_name_injective_witness :
  u "pets.txt" = u "pets.txt" /\ 2 = 2.
Proof.
  apply (@cache_name_injective (u "pets.txt") (u "pets.txt") 2 2). reflexivity.
Defined.

Lemma lookup_store_other {V} (k k' : unicode) (v : V) (l : list (unicode * V)) :
  k <> k' -> lookup k' (store k v l) = lookup k' l.
Proof.
  intro Hk. induction l as [|[k0 v0] l IH]; simpl.
  - destruct (unicode_eqb k' k) eqn:E; [|reflexivity].
    apply unicode_eqb_eq in E. congruence.
  - destruct (unicode_eqb k k0) eqn:E0; simpl.
    + apply unicode_eqb_eq in E0. subst k0.
      destruct (unicode_eqb k' k) eqn:E; [|reflexivity].
      apply unicode_eqb_eq in E. congruence.
    + now rewrite IH.
Qed.

(** X18. With [no_cache] the constructor never reuses and never stores: a
    successful construction opens the input file, builds from the empty table
    of a fresh in-memory database, and leaves the cache files on disk as they
    were, whatever they hold. *)
Theorem no_cache_always_rebuilds `{UnicodeData} (c : char) (f : unicode) (lb : Z)
    (w w' : world) (mc : MarkovChain) :
  init (Some (c :: f)) lb true w = Returns (mc, w') ->
  disk w' = disk w /\
  files w' = files w /\
  opened w' = (c :: f) :: opened w /\
  db_file mc = None /\
  exists text,
    lookup (c :: f) (files w) = Some text /\
    generate_markov_chain lb text (mkDb (Some []) None) = Returns (conn mc).
Proof.
  unfold init. cbv beta zeta iota. intro I.
  apply input_rebuilds in I; [|reflexivity].
  destruct I as [text [Hfile [_ [G [-> ->]]]]]. simpl in *.
  repeat split. now exists text.
Qed.

Lemma no_cache_always_rebuilds_witness :
  disk pets_world_reopened = disk pets_world_cached /\
  files pets_world_reopened = files pets_world_cached /\
  opened pets_world_reopened = u "pets.txt" :: opened pets_world_cached /\
  db_file pets_chain = None /\
  exists text,
    lookup (u "pets.txt") (files pets_world_cached) = Some text /\
    @generate_markov_chain ascii_table 2 text (mkDb (Some []) None)
    = Returns (conn pets_chain).
Proof.
  apply (@no_cache_always_rebuilds ascii_table 112%N (u "ets.txt") 2
           pets_world_cached pets_world_reopened pets_chain).
  vm_compute. reflexivity.
Defined.

(** X19. A construction touches the cache of its own identity only: the
    database stored for any other (input path, lookback) pair is the same
    before and after, whether this construction rebuilt or reused. *)
Theorem other_caches_untouched `{UnicodeData} (f f2 : unicode) (lb lb2 : Z)
    (no_cache : bool) (w w' : world) (mc : MarkovChain) :
  init (Some f) lb no_cache w = Returns (mc, w') ->
  (f, lb) <> (f2, lb2) ->
  lookup (cache_name (Some f2) lb2) (disk w')
  = lookup (cache_name (Some f2) lb2) (disk w).
Proof.
  unfold init. intros I Hother.
  destruct f as [|c f]; [now injection I as _ <-|].
  cbv beta zeta iota in I.
  set (target := if no_cache then None else Some (cache_name _ lb)) in I.
  match type of I with
  | input (mkChain _ _ ?d) _ _ = _ => set (conn0 := d) in I
  end.
  destruct (table_exists conn0) eqn:T.
  - rewrite input_cached in I by exact T. now injection I as _ <-.
  - apply input_rebuilds in I; [|exact T].
    destruct I as [text [_ [_ [_ [_ ->]]]]]. simpl.
    subst target. destruct no_cache; simpl; [reflexivity|].
    apply lookup_store_other. intro E.
    apply cache_name_injective_lemma in E as [E1 E2]. apply Hother. congruence.
Qed.

Lemma other_caches_untouched_witness :
  lookup (cache_name (Some (u "pets.txt")) 3) (disk (snd pets_cached))
  = lookup (cache_name (Some (u "pets.txt")) 3) (disk pets_world).
Proof.
  apply (@other_caches_untouched ascii_table (u "pets.txt") (u "pets.txt") 2 3 false
           pets_world (snd pets_cached) (fst pets_cached)).
  - vm_compute. reflexivity.
  - intro E. injection E as E. discriminate.
Defined.

(** ** The command line *)

Lemma index_of_none (x : unicode) (args : list unicode) :
  ~ In x args -> index_of x args = None.
Proof.
  induction args as [|y t IH]; intro Hx; simpl; [reflexivity|].
  destruct (unicode_eqb y x) eqn:E.
  - apply unicode_eqb_eq in E. subst. exfalso. apply Hx. now left.
  - rewrite IH; [reflexivity | intro Hin; apply Hx; now right].
Qed.

Lemma index_of_first (x : unicode) (pre post : list unicode) :
  ~ In x pre -> index_of x (pre ++ x :: post) = Some (List.length pre).
Proof.
  induction pre as [|y t IH]; intro Hx; simpl.
  - now rewrite unicode_eqb_refl.
  - destruct (unicode_eqb y x) eqn:E.
    + apply unicode_eqb_eq in E. subst. exfalso. apply Hx. now left.
    + rewrite IH; [reflexivity | intro Hin; apply Hx; now right].
Qed.

Lemma delete_at_middle {A} (pre post : list A) (a : A) :
  delete_at (List.length pre) (pre ++ a :: post) = pre ++ post.
Proof. induction pre as [|y t IH]; simpl; [reflexivity | now rewrite IH]. Qed.

Lemma delete_at_next {A} (pre post : list A) (a b : A) :
  delete_at (S (List.length pre)) (pre ++ a :: b :: post) = pre ++ a :: post.
Proof.
  induction pre as [|y t IH]; [reflexivity|].
  change (y :: delete_at (S (List.length t)) (t ++ a :: b :: post)
          = y :: t ++ a :: post).
  now rewrite IH.
Qed.

Lemma item_next (pre post : list unicode) (a b : unicode) :
  item (pre ++ a :: b :: post) (S (List.length pre)) = Proceeds b.
Proof.
  unfold item. induction pre as [|y t IH]; simpl; [reflexivity | exact IH].
Qed.

Lemma item_missing (pre : list unicode) (a : unicode) :
  item (pre ++ [a]) (S (List.length pre)) = Aborts IndexError.
Proof.
  unfold item. induction pre as [|y t IH]; simpl; [reflexivity | exact IH].
Qed.

Lemma plain_not_in (args : list unicode) (name : unicode) :
  plain args -> In name option_names -> ~ In name args.
Proof. intros Hp Hn Hin. exact (Hp name Hin Hn). Qed.

Lemma plain_app (a b : list unicode) : plain (a ++ b) <-> plain a /\ plain b.
Proof.
  unfold plain. split.
  - intro Hp. split; intros x Hx; apply Hp; apply in_or_app; tauto.
  - intros [Ha Hb] x Hx. apply in_app_or in Hx as [Hx|Hx]; auto.
Qed.

Lemma long_enough (prog : unicode) (args : list unicode) :
  args <> [] -> (List.length (prog :: args) <? 2)%nat = false.
Proof.
  intro Ha. apply Nat.ltb_ge. destruct args; [congruence | simpl; lia].
Qed.

Ltac option_name :=
  unfold option_names; simpl; tauto.

Section CommandLineFacts.
Variable utf8_decode : unicode -> option unicode.

Lemma main_arguments_plain (prog : unicode) (a : unicode) (args : list unicode) :
  plain (a :: args) ->
  main_arguments utf8_decode (prog :: a :: args)
  = Proceeds (mkOptions None (PyInt 140) (PyInt 3) false false (a :: args), a).
Proof.
  intro Hp. unfold main_arguments. rewrite long_enough by discriminate.
  cbn [tl].
  repeat (rewrite index_of_none by (apply plain_not_in; [exact Hp | option_name]);
          cbn [mbind]).
  reflexivity.
Qed.
End CommandLineFacts.

Lemma not_in_around (name : unicode) (pre mid post : list unicode) :
  plain (pre ++ post) -> In name option_names -> ~ In name mid ->
  ~ In name (pre ++ mid ++ post).
Proof.
  intros Hp Hn Hmid Hin. apply plain_app in Hp as [Hpre Hpost].
  apply in_app_or in Hin as [Hin|Hin]; [exact (Hpre _ Hin Hn)|].
  apply in_app_or in Hin as [Hin|Hin]; [exact (Hmid Hin) | exact (Hpost _ Hin Hn)].
Qed.

Ltac literal_differs :=
  let E := fresh "E" in
  intro E; vm_compute in E; discriminate.

Section CommandLineOptions.
Variable utf8_decode : unicode -> option unicode.
Variable prog : unicode.

Lemma main_arguments_startword (pre post : list unicode) (v sw source : unicode)
    (rest : list unicode) :
  plain (pre ++ post) ->
  pre ++ post = source :: rest ->
  utf8_decode v = Some sw ->
  main_arguments utf8_decode (prog :: pre ++ u "--startword" :: v :: post)
  = Proceeds (mkOptions (Some sw) (PyInt 140) (PyInt 3) false false (pre ++ post),
              source).
Proof.
  intros Hp Hsrc Hdec. unfold main_arguments.
  rewrite long_enough by (now destruct pre). cbn [tl].
  assert (Hpre : plain pre) by (now apply plain_app in Hp).
  rewrite index_of_first by (apply plain_not_in; [exact Hpre | option_name]).
  rewrite item_next. cbn [mbind]. rewrite Hdec.
  rewrite delete_at_next, delete_at_middle. cbn [mbind].
  repeat (rewrite index_of_none by (apply plain_not_in; [exact Hp | option_name]);
          cbn [mbind]).
  rewrite Hsrc. reflexivity.
Qed.

Lemma main_arguments_max_length (pre post : list unicode) (v source : unicode)
    (rest : list unicode) :
  plain (pre ++ post) ->
  pre ++ post = source :: rest ->
  v <> u "--startword" ->
  main_arguments utf8_decode (prog :: pre ++ u "--max-length" :: v :: post)
  = Proceeds (mkOptions None (PyStr v) (PyInt 3) false false (pre ++ post), source).
Proof.
  intros Hp Hsrc Hv. unfold main_arguments.
  rewrite long_enough by (now destruct pre). cbn [tl].
  assert (Hpre : plain pre) by (now apply plain_app in Hp).
  rewrite index_of_none.
  2:{ apply (@not_in_around _ pre [u "--max-length"; v] post);
        [exact Hp | option_name |].
      intros [E|[E|[]]]; [revert E; literal_differs | now apply Hv]. }
  cbn [mbind].
  rewrite index_of_first by (apply plain_not_in; [exact Hpre | option_name]).
  rewrite item_next. cbn [mbind].
  rewrite delete_at_next, delete_at_middle.
  repeat (rewrite index_of_none by (apply plain_not_in; [exact Hp | option_name]);
          cbn [mbind]).
  rewrite Hsrc. reflexivity.
Qed.

Lemma main_arguments_lookback (pre post : list unicode) (v : unicode) :
  plain (pre ++ v :: post) ->
  main_arguments utf8_decode (prog :: pre ++ u "--lookback" :: v :: post)
  = Proceeds (mkOptions None (PyInt 140) (PyStr v) false false
                (pre ++ u "--lookback" :: post),
              hd (u "--lookback") pre).
Proof.
  intros Hp. unfold main_arguments.
  rewrite long_enough by (now destruct pre). cbn [tl].
  assert (Hpre : plain pre) by (now apply plain_app in Hp).
  assert (Hpp : plain (pre ++ post)).
  { apply plain_app in Hp as [? Hvp]. apply plain_app. split; [assumption|].
    intros x Hx. apply Hvp. now right. }
  assert (Hv : ~ In v option_names) by (apply Hp; apply in_or_app; right; now left).
  assert (Hbefore : forall name, In name option_names -> name <> u "--lookback" ->
                                 ~ In name (pre ++ u "--lookback" :: v :: post)).
  { intros name Hn Hne.
    apply (@not_in_around _ pre [u "--lookback"; v] post); [exact Hpp | exact Hn |].
    intros [E|[E|[]]]; [now apply Hne | subst; contradiction]. }
  assert (Hafter : forall name, In name option_names -> name <> u "--lookback" ->
                                ~ In name (pre ++ u "--lookback" :: post)).
  { intros name Hn Hne.
    apply (@not_in_around _ pre [u "--lookback"] post); [exact Hpp | exact Hn |].
    intros [E|[]]. now apply Hne. }
  rewrite index_of_none by (apply Hbefore; [option_name | literal_differs]).
  cbn [mbind].
  rewrite index_of_none by (apply Hbefore; [option_name | literal_differs]).
  cbn [mbind].
  rewrite index_of_first by (apply plain_not_in; [exact Hpre | option_name]).
  rewrite item_next. cbn [mbind]. rewrite delete_at_next.
  rewrite index_of_none by (apply Hafter; [option_name | literal_differs]).
  rewrite index_of_none by (apply Hafter; [option_name | literal_differs]).
  now destruct pre.
Qed.

Lemma main_arguments_missing_value (pre : list unicode) (name : unicode) :
  plain pre ->
  In name [u "--startword"; u "--max-length"; u "--lookback"] ->
  main_arguments utf8_decode (prog :: pre ++ [name]) = Aborts IndexError.
Proof.
  intros Hp Hname. unfold main_arguments.
  rewrite long_enough by (now destruct pre). cbn [tl].
  assert (Hother : forall other, In other option_names -> other <> name ->
                                 ~ In other (pre ++ [name])).
  { intros other Ho Hne Hin. apply in_app_or in Hin as [Hin|[E|[]]];
      [exact (Hp _ Hin Ho) | now apply Hne]. }
  destruct Hname as [<-|[<-|[<-|[]]]].
  - rewrite index_of_first by (apply plain_not_in; [exact Hp | option_name]).
    now rewrite item_missing.
  - rewrite index_of_none by (apply Hother; [option_name | literal_differs]).
    cbn [mbind].
    rewrite index_of_first by (apply plain_not_in; [exact Hp | option_name]).
    now rewrite item_missing.
  - rewrite index_of_none by (apply Hother; [option_name | literal_differs]).
    cbn [mbind].
    rewrite index_of_none by (apply Hother; [option_name | literal_differs]).
    cbn [mbind].
    rewrite index_of_first by (apply plain_not_in; [exact Hp | option_name]).
    now rewrite item_missing.
Qed.
End CommandLineOptions.

(** X20. Without any argument besides the program name the main block
    leaves with exit code 1. With arguments none of which is an option name
    it keeps them all, takes the first as the source, and uses the defaults:
    no start word, maximal length 140, lookback 3, cache on, generation on. *)
Theorem command_line_defaults (utf8_decode : unicode -> option unicode) :
  (forall argv, (List.length argv < 2)%nat ->
                main_arguments utf8_decode argv = Exits 1) /\
  (forall prog a args,
     plain (a :: args) ->
     main_arguments utf8_decode (prog :: a :: args)
     = Proceeds (mkOptions None (PyInt 140) (PyInt 3) false false (a :: args), a)).
Proof.
  split.
  - intros argv Hlen. unfold main_arguments.
    apply Nat.ltb_lt in Hlen. now rewrite Hlen.
  - intros. now apply main_arguments_plain.
Qed.

Lemma command_line_defaults_witness :
  main_arguments (fun v => Some v) [u "nonsense.py"] = Exits 1 /\
  main_arguments (fun v => Some v) [u "nonsense.py"; u "pets.txt"]
  = Proceeds (mkOptions None (PyInt 140) (PyInt 3) false false [u "pets.txt"],
              u "pets.txt").
Proof.
  destruct (command_line_defaults (fun v => Some v)) as [Husage Hplain].
  split.
  - apply Husage. simpl. lia.
  - apply Hplain. intros a [<-|[]]. vm_compute. intuition discriminate.
Defined.

(** X21. [--startword W] and [--max-length N] are taken out of the argument
    list together with their values, the other arguments keeping their order.
    The start word is the decoded [W], whatever [W] is; the maximal length is
    the string [N] itself, not a number. *)
Theorem valued_options_are_removed (utf8_decode : unicode -> option unicode)
    (prog : unicode) (pre post : list unicode) (v source : unicode)
    (rest : list unicode) :
  plain (pre ++ post) ->
  pre ++ post = source :: rest ->
  (forall sw,
     utf8_decode v = Some sw ->
     main_arguments utf8_decode (prog :: pre ++ u "--startword" :: v :: post)
     = Proceeds (mkOptions (Some sw) (PyInt 140) (PyInt 3) false false (pre ++ post),
                 source)) /\
  (v <> u "--startword" ->
   main_arguments utf8_decode (prog :: pre ++ u "--max-length" :: v :: post)
   = Proceeds (mkOptions None (PyStr v) (PyInt 3) false false (pre ++ post), source)).
Proof.
  intros Hp Hsrc. split.
  - intros sw Hdec. now apply main_arguments_startword with (rest := rest).
  - intro Hv. now apply main_arguments_max_length with (rest := rest).
Qed.

Lemma valued_options_are_removed_witness :
  main_arguments (fun v => Some v)
    (u "nonsense.py" :: [] ++ u "--startword" :: u "300" :: [u "pets.txt"])
  = Proceeds (mkOptions (Some (u "300")) (PyInt 140) (PyInt 3) false false
                ([] ++ [u "pets.txt"]), u "pets.txt") /\
  main_arguments (fun v => Some v)
    (u "nonsense.py" :: [] ++ u "--max-length" :: u "300" :: [u "pets.txt"])
  = Proceeds (mkOptions None (PyStr (u "300")) (PyInt 3) false false
                ([] ++ [u "pets.txt"]), u "pets.txt").
Proof.
  destruct (@valued_options_are_removed (fun v => Some v) (u "nonsense.py")
              [] [u "pets.txt"] (u "300") (u "pets.txt") [])
    as [Hstart Hmax].
  - intros a [<-|[]]. vm_compute. intuition discriminate.
  - reflexivity.
  - split; [now apply Hstart | apply Hmax; vm_compute; discriminate].
Defined.

(** X22. [--lookback N] loses its value but not its name: the lookback
    becomes the string [N] and ["--lookback"] stays in the argument list, so
    that given before the input file it is itself taken as the source. *)
Theorem lookback_flag_stays (utf8_decode : unicode -> option unicode)
    (prog : unicode) (pre post : list unicode) (v : unicode) :
  plain (pre ++ v :: post) ->
  main_arguments utf8_decode (prog :: pre ++ u "--lookback" :: v :: post)
  = Proceeds (mkOptions None (PyInt 140) (PyStr v) false false
                (pre ++ u "--lookback" :: post),
              hd (u "--lookback") pre).
Proof. intro Hp. now apply main_arguments_lookback. Qed.

Lemma lookback_flag_stays_witness :
  main_arguments (fun v => Some v)
    (u "nonsense.py" :: [] ++ u "--lookback" :: u "2" :: [u "pets.txt"])
  = Proceeds (mkOptions None (PyInt 140) (PyStr (u "2")) false false
                ([] ++ u "--lookback" :: [u "pets.txt"]),
              hd (u "--lookback") []).
Proof.
  apply (@lookback_flag_stays (fun v => Some v) (u "nonsense.py") []
           [u "pets.txt"] (u "2")).
  intros a [<-|[<-|[]]]; vm_compute; intuition discriminate.
Defined.

(** X23. An option that takes a value and comes last, after arguments that
    are no option names, makes the main block die of [IndexError]. *)
Theorem option_without_value_raises (utf8_decode : unicode -> option unicode)
    (prog : unicode) (pre : list unicode) (name : unicode) :
  plain pre ->
  In name [u "--startword"; u "--max-length"; u "--lookback"] ->
  main_arguments utf8_decode (prog :: pre ++ [name]) = Aborts IndexError.
Proof. intros Hp Hn. now apply main_arguments_missing_value. Qed.

Lemma option_without_value_raises_witness :
  main_arguments (fun v => Some v)
    (u "nonsense.py" :: [u "pets.txt"] ++ [u "--lookback"])
  = Aborts IndexError.
Proof.
  apply (@option_without_value_raises (fun v => Some v) (u "nonsense.py")
           [u "pets.txt"] (u "--lookback")).
  - intros a [<-|[]]. vm_compute. intuition discriminate.
  - right. right. left. reflexivity.
Defined.
